(** * pyadic: truncated p-adic integers over NumPy digit arrays

    Shallow embedding of [src/your_library/padic.py] (class [PadicInteger])
    and the verification of its specification.

    The class stores its digits in a NumPy array whose element type is
    chosen from the prime ([uint8], [uint16] or [uint32]).  Reading
    [self.digits[i]] therefore yields a NumPy scalar of that fixed width,
    and every [+], [-], [*], [%] and [//] of the operators is NumPy scalar
    arithmetic, not Python integer arithmetic.  The embedding keeps both
    kinds of number apart and writes the wrap-around out.

    How a NumPy scalar combines with a Python integer depends on the NumPy
    release: up to 1.x both operands are promoted ([uint8] with a Python
    integer gives [int64]); from 2.0 on (NEP 50) the Python integer is
    converted to the scalar's type.  The embedding is parameterised by that
    choice; a result that does not name a regime holds for both. *)

From Stdlib Require Import ZArith Znumtheory List Lia Bool.
From Stdlib Require Ascii String DecimalString DecimalZ.
From stdpp Require Import base list.
Import ListNotations String.StringSyntax Ascii.AsciiSyntax.
Local Open Scope Z_scope.
Delimit Scope string_scope with string.
Delimit Scope char_scope with char.

(* ================================================================= *)
(** ** Outcomes: a value or a raised exception *)

(** [OperandMismatch] is the [ValueError] raised by the prime check of the
    three operators and [ValueError] the one the constructor raises for a
    value that is neither an [int] nor a [list]; the other constructors are
    the exceptions Python and NumPy raise on their own.  [OutsideInt64] marks the one place where the
    legacy promotion leaves integer arithmetic (a Python integer that does
    not fit [int64] turns the operation into [uint64], [float64] or
    [object] arithmetic); the embedding stops there. *)
Inductive exn : Set :=
| OperandMismatch
| ValueError
| IndexError
| OverflowError
| ZeroDivisionError
| OutsideInt64.

Inductive outcome (A : Type) : Type :=
| Ok (x : A)
| Raise (e : exn).
Arguments Ok {A} x.
Arguments Raise {A} e.

Definition bind {A B : Type} (c : outcome A) (k : A -> outcome B) : outcome B :=
  match c with
  | Ok x => k x
  | Raise e => Raise e
  end.

Notation "'let*' x ':=' c 'in' k" := (bind c (fun x => k))
  (at level 10, x name, c at level 100, k at level 200).
Notation "'let*' ( x , y ) ':=' c 'in' k" :=
  (bind c (fun xy => let '(x, y) := xy in k))
  (at level 10, x name, y name, c at level 100, k at level 200).

(** [for i in range(start, start + count)] threading a state. *)
Fixpoint for_range {S : Type} (body : nat -> S -> outcome S)
         (start count : nat) (s : S) : outcome S :=
  match count with
  | O => Ok s
  | Datatypes.S c => let* s' := body start s in for_range body (Datatypes.S start) c s'
  end.

(** Python's [range(n)] is empty for [n <= 0]. *)
Definition range_len (n : Z) : nat := Z.to_nat n.

(* ================================================================= *)
(** ** NumPy scalars *)

Module NumPy.

Inductive dtype : Set := uint8 | uint16 | uint32 | int64.

Inductive promotion : Set :=
| Legacy   (* NumPy 1.x: value-based promotion, Python int is int64 *)
| NEP50.   (* NumPy 2.x: a Python int takes the scalar's dtype *)

(** A number at run time: a Python [int] or a NumPy scalar. *)
Inductive scalar : Set :=
| PyInt (z : Z)
| Np (t : dtype) (z : Z).

Definition payload (x : scalar) : Z :=
  match x with PyInt z => z | Np _ z => z end.

Definition bits (t : dtype) : Z :=
  match t with uint8 => 8 | uint16 => 16 | uint32 => 32 | int64 => 64 end.

Definition lo (t : dtype) : Z :=
  match t with int64 => - 2 ^ 63 | _ => 0 end.

(** Exclusive upper bound. *)
Definition hi (t : dtype) : Z :=
  match t with int64 => 2 ^ 63 | _ => 2 ^ bits t end.

Definition fits (t : dtype) (z : Z) : bool :=
  (lo t <=? z) && (z <? hi t).

(** C integer conversion: reduce modulo [2 ^ bits] into the type's range. *)
Definition wrap (t : dtype) (z : Z) : Z :=
  (z - lo t) mod 2 ^ bits t + lo t.

Definition promote_types (t u : dtype) : dtype :=
  match t, u with
  | int64, _ | _, int64 => int64
  | uint32, _ | _, uint32 => uint32
  | uint16, _ | _, uint16 => uint16
  | uint8, uint8 => uint8
  end.

Inductive binop : Set := Add | Sub | Mul | FloorDiv | Mod.

(** Integer ufuncs: floor division and remainder follow Python's sign
    convention; division by zero gives 0 (with a warning). *)
Definition ufunc (op : binop) (a b : Z) : Z :=
  match op with
  | Add => a + b
  | Sub => a - b
  | Mul => a * b
  | FloorDiv => if b =? 0 then 0 else a / b
  | Mod => if b =? 0 then 0 else a mod b
  end.

(** The same operators on two Python integers. *)
Definition py_binop (op : binop) (a b : Z) : outcome Z :=
  match op with
  | Add => Ok (a + b)
  | Sub => Ok (a - b)
  | Mul => Ok (a * b)
  | FloorDiv => if b =? 0 then Raise ZeroDivisionError else Ok (a / b)
  | Mod => if b =? 0 then Raise ZeroDivisionError else Ok (a mod b)
  end.

(** The dtype in which a NumPy scalar of type [t] and the Python integer
    [z] are combined.  Under the legacy rules a Python integer is an
    [int64] operand as long as it is one; beyond that range NumPy 1 goes on
    in [uint64], [float64] or Python objects, which this development does
    not model: [OutsideInt64] marks that boundary and is no exception of
    the program. *)
Definition weak_dtype (r : promotion) (t : dtype) (z : Z) : outcome dtype :=
  match r with
  | NEP50 => if fits t z then Ok t else Raise OverflowError
  | Legacy => if fits int64 z then Ok (promote_types t int64) else Raise OutsideInt64
  end.

Definition arith (r : promotion) (op : binop) (x y : scalar) : outcome scalar :=
  match x, y with
  | PyInt a, PyInt b => let* c := py_binop op a b in Ok (PyInt c)
  | Np t a, Np u b =>
      let tu := promote_types t u in Ok (Np tu (wrap tu (ufunc op a b)))
  | Np t a, PyInt b =>
      let* tu := weak_dtype r t b in Ok (Np tu (wrap tu (ufunc op a b)))
  | PyInt a, Np t b =>
      let* tu := weak_dtype r t a in Ok (Np tu (wrap tu (ufunc op a b)))
  end.

(** [x < n] for a scalar [x] and a Python integer [n]: exact in both
    regimes. *)
Definition lt_py (x : scalar) (n : Z) : bool := payload x <? n.

(** Exclusive upper bound of the Python integers that the legacy
    conversion accepts for an array of dtype [t]: the 8-bit and 16-bit
    types go through a C [long], [uint32] through an [unsigned long] with a
    [long] as fallback for negative numbers. *)
Definition legacy_hi (t : dtype) : Z :=
  match t with uint32 => 2 ^ 64 | _ => 2 ^ 63 end.

(** One element of [np.array(values, dtype=t)].  A NumPy scalar is cast
    (C conversion).  A Python integer out of range is an [OverflowError]
    under NEP 50; the legacy conversion reads it into a C integer, which
    raises [OverflowError] outside that integer's range, and then wraps it
    into the dtype. *)
Definition store (r : promotion) (t : dtype) (x : scalar) : outcome Z :=
  match x with
  | Np _ z => Ok (wrap t z)
  | PyInt z =>
      if fits t z then Ok z
      else match r with
           | NEP50 => Raise OverflowError
           | Legacy => if (- 2 ^ 63 <=? z) && (z <? legacy_hi t) then Ok (wrap t z)
                       else Raise OverflowError
           end
  end.

Fixpoint array (r : promotion) (t : dtype) (values : list scalar) : outcome (list Z) :=
  match values with
  | [] => Ok []
  | x :: rest =>
      let* d := store r t x in
      let* ds := array r t rest in
      Ok (d :: ds)
  end.

End NumPy.
Import NumPy.

(* ================================================================= *)
(** ** Python lists *)

(** [l[:k]]: a negative [k] counts from the end. *)
Definition py_slice_to {A : Type} (l : list A) (k : Z) : list A :=
  if 0 <=? k then firstn (Z.to_nat k) l
  else firstn (Z.to_nat (Z.of_nat (length l) + k)) l.

(** [l[i] = v]: a negative index counts from the end, an index outside the
    list raises. *)
Definition py_setitem {A : Type} (l : list A) (i : Z) (v : A) : outcome (list A) :=
  let n := Z.of_nat (length l) in
  if (0 <=? i) && (i <? n) then Ok (<[Z.to_nat i := v]> l)
  else if (- n <=? i) && (i <? 0) then Ok (<[Z.to_nat (n + i) := v]> l)
  else Raise IndexError.

Definition py_getitem {A : Type} (l : list A) (i : nat) : outcome A :=
  match l !! i with
  | Some v => Ok v
  | None => Raise IndexError
  end.

(* ================================================================= *)
(** ** The class [PadicInteger] *)

Record PadicInteger : Set := mkPadic {
  prime : Z;
  precision : Z;
  dtype : NumPy.dtype;
  digits : list Z   (* the contents of the array, of element type [dtype] *)
}.

(** The argument [value: Union[int, List[int]]] of the constructor, told
    apart by [isinstance]. *)
Inductive py_value : Set :=
| IntValue (n : Z)
| ListValue (l : list scalar)
| OtherValue.

(** [np.uint8 if prime < 256 else (np.uint16 if prime < 65536 else np.uint32)] *)
Definition select_dtype (p : Z) : NumPy.dtype :=
  if p <? 256 then uint8 else if p <? 65536 then uint16 else uint32.

Section Operators.

Variable r : promotion.

(** [_int_to_padic]: [digits.append(n % prime); n //= prime], repeated
    [precision] times on Python integers, then [np.array]. *)
Definition int_to_padic_body (p : Z) (_ : nat) (s : list Z * Z) : outcome (list Z * Z) :=
  let '(ds, n) := s in
  let* d := py_binop Mod n p in
  let* q := py_binop FloorDiv n p in
  Ok (ds ++ [d], q).

Definition _int_to_padic (p k : Z) (n : Z) : outcome (list Z) :=
  let* (ds, _n) := for_range (int_to_padic_body p) 0 (range_len k) ([], n) in
  array r (select_dtype p) (map PyInt ds).

(** The branch [isinstance(value, int)] of the constructor. *)
Definition init_int (n p k : Z) : outcome PadicInteger :=
  let* ds := _int_to_padic p k n in
  Ok (mkPadic p k (select_dtype p) ds).

(** The branch [isinstance(value, list)]:
    [np.array(value[:precision], dtype=self.dtype)]. *)
Definition init_list (value : list scalar) (p k : Z) : outcome PadicInteger :=
  let* ds := array r (select_dtype p) (py_slice_to value k) in
  Ok (mkPadic p k (select_dtype p) ds).

(** [PadicInteger(value, prime, precision)] *)
Definition __init__ (value : py_value) (p k : Z) : outcome PadicInteger :=
  match value with
  | IntValue n => init_int n p k
  | ListValue l => init_list l p k
  | OtherValue => Raise ValueError
  end.

(** [x.digits[i]]: a NumPy scalar of the array's element type. *)
Definition digit (x : PadicInteger) (i : nat) : outcome scalar :=
  let* d := py_getitem (digits x) i in Ok (Np (dtype x) d).

(** [x.digits[i] if i < x.precision else 0] *)
Definition digit_or_zero (x : PadicInteger) (i : nat) : outcome scalar :=
  if Z.of_nat i <? precision x then digit x i else Ok (PyInt 0).

(** Body of the loop of [__add__]; the state is [(result, carry)]. *)
Definition add_body (self other : PadicInteger) (i : nat)
           (s : list scalar * scalar) : outcome (list scalar * scalar) :=
  let '(result, carry) := s in
  let* a := digit_or_zero self i in
  let* b := digit_or_zero other i in
  let* ab := arith r Add a b in
  let* digit_sum := arith r Add ab carry in
  let* d := arith r Mod digit_sum (PyInt (prime self)) in
  let* c := arith r FloorDiv digit_sum (PyInt (prime self)) in
  Ok (result ++ [d], c).

Definition __add__ (self other : PadicInteger) : outcome PadicInteger :=
  if negb (prime self =? prime other) then Raise OperandMismatch
  else
    let n := Z.max (precision self) (precision other) in
    let* (result, _c) :=
      for_range (add_body self other) 0 (range_len n) ([], PyInt 0) in
    __init__ (ListValue result) (prime self) n.

(** Body of the loop of [__sub__]; the state is [(result, borrow)] and the
    borrow is always a Python integer. *)
Definition sub_body (self other : PadicInteger) (i : nat)
           (s : list scalar * Z) : outcome (list scalar * Z) :=
  let '(result, borrow) := s in
  let* a := digit_or_zero self i in
  let* b := digit_or_zero other i in
  let* ab := arith r Sub a b in
  let* abb := arith r Sub ab (PyInt borrow) in
  let* digit_diff := arith r Add abb (PyInt (prime self)) in
  let* d := arith r Mod digit_diff (PyInt (prime self)) in
  Ok (result ++ [d], if lt_py digit_diff (prime self) then 1 else 0).

Definition __sub__ (self other : PadicInteger) : outcome PadicInteger :=
  if negb (prime self =? prime other) then Raise OperandMismatch
  else
    let n := Z.max (precision self) (precision other) in
    let* (result, _c) :=
      for_range (sub_body self other) 0 (range_len n) ([], 0) in
    __init__ (ListValue result) (prime self) n.

(** Inner loop of [__mul__]; the state is [(result, carry)]. *)
Definition mul_inner (self other : PadicInteger) (i j : nat)
           (s : list scalar * scalar) : outcome (list scalar * scalar) :=
  let '(result, carry) := s in
  let* acc := py_getitem result (i + j) in
  let* a := digit self i in
  let* b := digit other j in
  let* ab := arith r Mul a b in
  let* t0 := arith r Add acc ab in
  let* temp := arith r Add t0 carry in
  let* d := arith r Mod temp (PyInt (prime self)) in
  let* result' := py_setitem result (Z.of_nat (i + j)) d in
  let* c := arith r FloorDiv temp (PyInt (prime self)) in
  Ok (result', c).

Definition mul_outer (self other : PadicInteger) (i : nat)
           (result : list scalar) : outcome (list scalar) :=
  let* (result', carry) :=
    for_range (mul_inner self other i) 0 (range_len (precision other))
              (result, PyInt 0) in
  py_setitem result' (Z.of_nat i + precision other) carry.

Definition __mul__ (self other : PadicInteger) : outcome PadicInteger :=
  if negb (prime self =? prime other) then Raise OperandMismatch
  else
    let n := precision self + precision other in
    let* result :=
      for_range (mul_outer self other) 0 (range_len (precision self))
                (replicate (range_len n) (PyInt 0)) in
    __init__ (ListValue result) (prime self) n.

End Operators.

(** The demonstration of the source file: [a = PadicInteger(123, 5, 10)],
    [b = PadicInteger(456, 5, 10)]. *)
Definition demo (r : promotion) (n : Z) : outcome PadicInteger :=
  __init__ r (IntValue n) 5 10.

(** The two values as the constructor returns them. *)
Definition demo_a : PadicInteger := mkPadic 5 10 uint8 [3; 4; 4; 0; 0; 0; 0; 0; 0; 0].
Definition demo_b : PadicInteger := mkPadic 5 10 uint8 [1; 1; 3; 3; 0; 0; 0; 0; 0; 0].

Definition digits_of (c : outcome PadicInteger) : option (list Z) :=
  match c with Ok x => Some (digits x) | Raise _ => None end.

Definition lift2 (f : PadicInteger -> PadicInteger -> outcome PadicInteger)
           (a b : outcome PadicInteger) : outcome PadicInteger :=
  let* x := a in let* y := b in f x y.

(* ================================================================= *)
(** ** Display and the demonstration *)

Notation "s +++ t" := (String.append s t) (at level 60, right associativity).

(** [str(n)] of a Python integer; a NumPy integer scalar prints the same
    under [str]. *)
Definition str_int (z : Z) : String.string :=
  DecimalString.NilZero.string_of_int (Z.to_int z).

Definition dtype_name (t : NumPy.dtype) : String.string :=
  match t with
  | uint8 => "uint8"
  | uint16 => "uint16"
  | uint32 => "uint32"
  | int64 => "int64"
  end%string.

(** [repr(d)] of a NumPy scalar: the bare number up to NumPy 1.x,
    [np.uint8(3)] from 2.0 on (NEP 51, which arrived in the release that
    brought NEP 50). *)
Definition repr_scalar (r : promotion) (t : NumPy.dtype) (z : Z) : String.string :=
  match r with
  | Legacy => str_int z
  | NEP50 => "np."%string +++ dtype_name t +++ "("%string +++ str_int z +++ ")"%string
  end.

(** [f"PadicInteger({list(self.digits)}, prime={self.prime}, precision={self.precision})"] *)
Definition __repr__ (r : promotion) (x : PadicInteger) : String.string :=
  "PadicInteger(["%string
  +++ String.concat ", "%string (map (repr_scalar r (dtype x)) (digits x))
  +++ "], prime="%string +++ str_int (prime x)
  +++ ", precision="%string +++ str_int (precision x) +++ ")"%string.

(** [f"(...{'.'.join(str(d) for d in reversed(self.digits))})"] *)
Definition __str__ (x : PadicInteger) : String.string :=
  "(..."%string +++ String.concat "."%string (map str_int (rev (digits x)))
  +++ ")"%string.

(** [print(f"{label}{value}")]: the value is computed first; if that raises,
    nothing more is printed. *)
Definition print_value (label : String.string) (value : outcome PadicInteger)
           (rest : list String.string -> list String.string * outcome unit)
           (printed : list String.string) : list String.string * outcome unit :=
  match value with
  | Ok v => rest (printed ++ [label +++ __str__ v])
  | Raise e => (printed, Raise e)
  end.

(** The block under [if __name__ == "__main__"]: the lines printed and how
    the run ends. *)
Definition main (r : promotion) : list String.string * outcome unit :=
  match __init__ r (IntValue 123) 5 10, __init__ r (IntValue 456) 5 10 with
  | Ok a, Ok b =>
      print_value "a = "%string (Ok a)
        (print_value "b = "%string (Ok b)
           (print_value "a + b = "%string (__add__ r a b)
              (print_value "a - b = "%string (__sub__ r a b)
                 (print_value "a * b = "%string (__mul__ r a b)
                    (fun printed => (printed, Ok tt)))))) []
  | Raise e, _ | _, Raise e => ([], Raise e)
  end.

(* ================================================================= *)
(** ** What the specification says, on unbounded integers *)

Module Spec.

(** Little-endian base-[p] expansion of [m], [len] digits long: digit [i]
    is [(m div p^i) mod p], so positions above the top digit are 0. *)
Definition expansion (p : Z) (len : nat) (m : Z) : list Z :=
  map (fun i => (m / p ^ Z.of_nat i) mod p) (seq 0 len).

(** The integer a little-endian digit sequence represents. *)
Fixpoint value (p : Z) (ds : list Z) : Z :=
  match ds with
  | [] => 0
  | d :: rest => d + p * value p rest
  end.

Definition in_range (p : Z) (ds : list Z) : Prop :=
  Forall (fun d => 0 <= d < p) ds.

(** Section 4.2: [sum = a_digit + b_digit + carry_in], output digit
    [sum mod prime], [carry_out = sum div prime]; missing digits are 0. *)
Fixpoint add_from (p : Z) (a b : list Z) (i count : nat) (carry : Z) : list Z :=
  match count with
  | O => []
  | S c =>
      let sum := nth i a 0 + nth i b 0 + carry in
      sum mod p :: add_from p a b (S i) c (sum / p)
  end.

Definition add (p : Z) (a b : list Z) (len : nat) : list Z :=
  add_from p a b 0 len 0.

(** Section 4.3: [diff = a_digit - b_digit - borrow_in + prime], output
    digit [diff mod prime], [borrow_out = 1] if [diff < prime] else 0. *)
Fixpoint sub_from (p : Z) (a b : list Z) (i count : nat) (borrow : Z) : list Z :=
  match count with
  | O => []
  | S c =>
      let diff := nth i a 0 - nth i b 0 - borrow + p in
      diff mod p :: sub_from p a b (S i) c (if diff <? p then 1 else 0)
  end.

Definition subtract (p : Z) (a b : list Z) (len : nat) : list Z :=
  sub_from p a b 0 len 0.

(** Section 4.4: schoolbook convolution into a zeroed buffer of length
    [ka + kb]; the inner loop accumulates [a[i] * b[j] + carry] onto
    [result[i+j]], the residual carry goes to [result[i + kb]]. *)
Fixpoint mul_row (p : Z) (ai : Z) (b : list Z) (i j count : nat)
         (result : list Z) (carry : Z) : list Z * Z :=
  match count with
  | O => (result, carry)
  | S c =>
      let acc := nth (i + j) result 0 + ai * nth j b 0 + carry in
      mul_row p ai b i (S j) c (<[(i + j)%nat := acc mod p]> result) (acc / p)
  end.

Fixpoint mul_rows (p : Z) (a b : list Z) (kb : nat) (i count : nat)
         (result : list Z) : list Z :=
  match count with
  | O => result
  | S c =>
      let '(result', carry) := mul_row p (nth i a 0) b i 0 kb result 0 in
      mul_rows p a b kb (S i) c (<[(i + kb)%nat := carry]> result')
  end.

Definition multiply (p : Z) (a b : list Z) (ka kb : nat) : list Z :=
  mul_rows p a b kb 0 ka (replicate (ka + kb) 0).

End Spec.

(** An operand as the specification expects it: as many digits as its
    precision, each in [0, prime - 1], stored with the width the constructor
    selects. *)
Record well_formed (x : PadicInteger) : Prop := {
  wf_length : Z.of_nat (length (digits x)) = precision x;
  wf_range : Spec.in_range (prime x) (digits x);
  wf_dtype : dtype x = select_dtype (prime x)
}.

(* ================================================================= *)
(** ** Predicates used in the proofs *)

(** Nothing but the prime check raises [OperandMismatch]. *)
Definition no_mismatch {A : Type} (c : outcome A) : Prop :=
  c <> Raise OperandMismatch.

Create HintDb mismatch.

(** A scalar is tame for the unsigned dtype [t] when it is a Python integer
    or a NumPy scalar of type [t] or [int64] (the legacy promotion of [t]
    with a Python integer) whose value is in the range of [t]. *)
Definition carrier (t u : NumPy.dtype) : Prop := u = t \/ u = int64.

Definition tame (t : NumPy.dtype) (x : scalar) : Prop :=
  match x with
  | PyInt z => 0 <= z < 2 ^ bits t
  | Np u z => carrier t u /\ 0 <= z < 2 ^ bits t
  end.

Definition is_np (x : scalar) : Prop :=
  match x with Np _ _ => True | PyInt _ => False end.

(** What ends up in the result list: a NumPy scalar holding a digit. *)
Definition digit_scalar (t : NumPy.dtype) (p : Z) (x : scalar) : Prop :=
  match x with
  | PyInt z => z = 0
  | Np u z => carrier t u /\ 0 <= z < p
  end.

(** The digit NumPy 1 computes for [a_digit - b_digit] when both are
    scalars of the storage dtype [t]: the difference wraps in [t] before the
    prime is added in [int64]. *)
Definition legacy_sub_digit (t : NumPy.dtype) (p x y : Z) : Z :=
  ((x - y) mod 2 ^ bits t) mod p.

(** Strings as character lists, for the proofs about what is displayed. *)
Definition chars (s : String.string) : list Ascii.ascii :=
  String.list_ascii_of_string s.

(** [sep.join(items)] on character lists. *)
Fixpoint join (sep : list Ascii.ascii) (items : list (list Ascii.ascii)) : list Ascii.ascii :=
  match items with
  | [] => []
  | x :: rest =>
      match rest with
      | [] => x
      | _ :: _ => x ++ sep ++ join sep rest
      end
  end.

(** The characters a decimal numeral is written with. *)
Definition numeral_char (c : Ascii.ascii) : Prop :=
  In c (chars "-0123456789"%string).

(** An operand that holds fewer digits than its precision. *)
Definition short (x : PadicInteger) : Prop :=
  Z.of_nat (length (digits x)) < precision x.

(** Trial division, to check that the inputs used below are primes. *)
Fixpoint no_divisor_from (fuel : nat) (d p : Z) : bool :=
  match fuel with
  | O => false
  | S fuel' =>
      if p <? d * d then true
      else if p mod d =? 0 then false
      else no_divisor_from fuel' (d + 1) p
  end.

Definition is_prime (p : Z) : bool :=
  (1 <? p) && no_divisor_from (S (Z.to_nat (Z.sqrt p))) 2 p.

(* ================================================================= *)
(** * Results *)

(** ** The outcome monad and the loop combinator *)

Lemma for_range_ext {S : Type} (f g : nat -> S -> outcome S) start count s :
  (forall i s', f i s' = g i s') ->
  for_range f start count s = for_range g start count s.
Proof.
  intros Hfg. revert start s.
  induction count as [|c IH]; intros start s; simpl; [reflexivity|].
  rewrite Hfg. destruct (g start s); simpl; auto.
Qed.

(** ** The primes used as inputs *)

Lemma no_divisor_from_sound (fuel : nat) (d p n : Z) :
  no_divisor_from fuel d p = true -> 0 < d -> d <= n -> n * n <= p ->
  ~ (n | p).
Proof.
  revert d. induction fuel as [|fuel IH]; intros d H Hd Hn Hsq; [discriminate|].
  simpl in H. destruct (Z.ltb_spec p (d * d)) as [Hlt|Hge]; [nia|].
  destruct (Z.eqb_spec (p mod d) 0) as [E|N]; [discriminate|].
  destruct (Z.eq_dec n d) as [->|Hne].
  - intros Hdiv. apply N. apply Z.mod_divide; [lia | assumption].
  - apply (IH (d + 1)); auto; lia.
Qed.

Lemma is_prime_sound (p : Z) : is_prime p = true -> Znumtheory.prime p.
Proof.
  unfold is_prime. intros H. apply andb_true_iff in H as [H1 H2].
  apply Z.ltb_lt in H1. apply prime_alt. split; [assumption|].
  intros n Hn [m Hm].
  assert (Hm1 : 1 < m < p) by nia.
  destruct (Z.le_ge_cases n m) as [Hle|Hle].
  - apply (no_divisor_from_sound _ 2 p n H2); try lia; [nia|]. now exists m.
  - apply (no_divisor_from_sound _ 2 p m H2); try lia; [nia|].
    exists n. lia.
Qed.

Ltac prime_by_trial_division := apply is_prime_sound; vm_compute; reflexivity.

Lemma prime_5 : Znumtheory.prime 5.
Proof. prime_by_trial_division. Qed.

Lemma prime_17 : Znumtheory.prime 17.
Proof. prime_by_trial_division. Qed.

Lemma prime_131 : Znumtheory.prime 131.
Proof. prime_by_trial_division. Qed.

Lemma prime_251 : Znumtheory.prime 251.
Proof. prime_by_trial_division. Qed.

Lemma prime_32771 : Znumtheory.prime 32771.
Proof. prime_by_trial_division. Qed.

Lemma prime_2147483659 : Znumtheory.prime 2147483659.
Proof. prime_by_trial_division. Qed.

Lemma prime_4294967311 : Znumtheory.prime 4294967311.
Proof. prime_by_trial_division. Qed.

(** ** Base-[p] expansions *)

Section Expansion.

Variable p : Z.
Hypothesis p_pos : 0 < p.

Lemma expansion_succ (len : nat) (m : Z) :
  Spec.expansion p (S len) m = m mod p :: Spec.expansion p len (m / p).
Proof.
  unfold Spec.expansion. simpl seq. rewrite map_cons. f_equal.
  - simpl. now rewrite Z.div_1_r.
  - rewrite <- seq_shift, map_map. apply map_ext. intros i.
    rewrite Nat2Z.inj_succ, Z.pow_succ_r by lia.
    rewrite Z.div_div by (try apply Z.pow_pos_nonneg; lia). reflexivity.
Qed.

Lemma expansion_length (len : nat) (m : Z) :
  length (Spec.expansion p len m) = len.
Proof. unfold Spec.expansion. now rewrite length_map, length_seq. Qed.

Lemma expansion_in_range (len : nat) (m : Z) :
  Spec.in_range p (Spec.expansion p len m).
Proof.
  unfold Spec.in_range, Spec.expansion. apply List.Forall_forall.
  intros d Hd. apply in_map_iff in Hd as (i & <- & _).
  apply Z.mod_pos_bound, p_pos.
Qed.

(** The digits represent [m] modulo [p ^ len]. *)
Lemma value_expansion (len : nat) (m : Z) :
  Spec.value p (Spec.expansion p len m) = m mod p ^ Z.of_nat len.
Proof.
  revert m. induction len as [|len IH]; intros m.
  - simpl. now rewrite Z.mod_1_r.
  - rewrite expansion_succ. simpl Spec.value. rewrite IH.
    rewrite Nat2Z.inj_succ, Z.pow_succ_r by lia.
    rewrite Z.rem_mul_r by (try apply Z.pow_pos_nonneg; lia). reflexivity.
Qed.

(** Only [m mod p ^ len] matters. *)
Lemma expansion_mod (len : nat) (m : Z) :
  Spec.expansion p len (m mod p ^ Z.of_nat len) = Spec.expansion p len m.
Proof.
  revert m. induction len as [|len IH]; intros m; [reflexivity|].
  rewrite !expansion_succ.
  rewrite Nat2Z.inj_succ, Z.pow_succ_r by lia.
  assert (Hq : 0 < p ^ Z.of_nat len) by (apply Z.pow_pos_nonneg; lia).
  rewrite Z.rem_mul_r by lia. f_equal.
  - rewrite Z.mul_comm, Z.mod_add by lia. apply Z.mod_mod. lia.
  - rewrite Z.mul_comm, Z.div_add by lia.
    rewrite Z.mod_div by lia. rewrite Z.add_0_l. apply IH.
Qed.

Lemma int_to_padic_step (i : nat) (ds : list Z) (n : Z) :
  int_to_padic_body p i (ds, n) = Ok (ds ++ [n mod p], n / p).
Proof.
  unfold int_to_padic_body, py_binop.
  destruct (Z.eqb_spec p 0) as [E|_]; [lia | reflexivity].
Qed.

(** The loop of [_int_to_padic] on Python integers. *)
Lemma int_to_padic_loop (count start : nat) (ds : list Z) (n : Z) :
  for_range (int_to_padic_body p) start count (ds, n)
  = Ok (ds ++ Spec.expansion p count n, n / p ^ Z.of_nat count).
Proof.
  revert start ds n. induction count as [|c IH]; intros start ds n.
  - simpl. now rewrite app_nil_r, Z.div_1_r.
  - cbn [for_range]. rewrite int_to_padic_step. cbn [bind].
    rewrite IH, expansion_succ, <- app_assoc. simpl app.
    rewrite Nat2Z.inj_succ, Z.pow_succ_r by lia.
    rewrite Z.div_div by (try apply Z.pow_pos_nonneg; lia). reflexivity.
Qed.

End Expansion.

Lemma expansion_mod_precision (p k n : Z) :
  0 < p -> 0 <= k ->
  Spec.expansion p (Z.to_nat k) (n mod p ^ k) = Spec.expansion p (Z.to_nat k) n.
Proof.
  intros Hp Hk. rewrite <- (expansion_mod p Hp (Z.to_nat k) n).
  now rewrite Z2Nat.id.
Qed.

(** ** Storing digits in the array *)

Lemma fits_select_dtype (p d : Z) :
  p <= 2 ^ 32 -> 0 <= d < p -> fits (select_dtype p) d = true.
Proof.
  intros Hp Hd. unfold select_dtype.
  destruct (Z.ltb_spec p 256); [|destruct (Z.ltb_spec p 65536)];
    unfold fits, lo, hi, bits; apply andb_true_iff; split;
    try apply Z.leb_le; try apply Z.ltb_lt; lia.
Qed.

Lemma array_python_ints (r : promotion) (t : NumPy.dtype) (ds : list Z) :
  Forall (fun d => fits t d = true) ds ->
  array r t (map PyInt ds) = Ok ds.
Proof.
  induction 1 as [|d ds Hd _ IH]; simpl; [reflexivity|].
  rewrite Hd. simpl. rewrite IH. reflexivity.
Qed.

Lemma array_in_range (r : promotion) (p : Z) (ds : list Z) :
  p <= 2 ^ 32 -> Spec.in_range p ds ->
  array r (select_dtype p) (map PyInt ds) = Ok ds.
Proof.
  intros Hp Hds. apply array_python_ints.
  eapply List.Forall_impl; [|exact Hds]. intros d Hd. now apply fits_select_dtype.
Qed.

(** ** Construction *)

Lemma init_int_expansion (r : promotion) (n p k : Z) :
  0 < p <= 2 ^ 32 ->
  __init__ r (IntValue n) p k
  = Ok (mkPadic p k (select_dtype p) (Spec.expansion p (range_len k) n)).
Proof.
  intros Hp. cbn [__init__]. unfold init_int, _int_to_padic.
  rewrite int_to_padic_loop by lia. simpl.
  rewrite array_in_range; [reflexivity | lia | apply expansion_in_range; lia].
Qed.

(** Inside the range of primes whose digits the selected dtype holds: for
    every integer [n >= 0], every prime [2 <= p <= 2^32] and every precision
    [k >= 1], construction from [n] succeeds and its digits are the
    little-endian base-[p] expansion of [n mod p^k], zero-padded to length
    exactly [k]. *)
Theorem init_int_natural (r : promotion) (n p k : Z) :
  0 <= n -> 2 <= p <= 2 ^ 32 -> 1 <= k ->
  __init__ r (IntValue n) p k
  = Ok (mkPadic p k (select_dtype p)
          (Spec.expansion p (Z.to_nat k) (n mod p ^ k)))
  /\ Z.of_nat (length (Spec.expansion p (Z.to_nat k) (n mod p ^ k))) = k.
Proof.
  intros _ Hp Hk. split.
  - rewrite init_int_expansion by lia. unfold range_len.
    now rewrite expansion_mod_precision by lia.
  - rewrite expansion_length by lia. lia.
Qed.

Lemma init_int_natural_witness :
  __init__ NEP50 (IntValue 123) 5 10
  = Ok (mkPadic 5 10 uint8 [3; 4; 4; 0; 0; 0; 0; 0; 0; 0]).
Proof.
  refine (proj1 (init_int_natural NEP50 123 5 10 _ _ _)); lia.
Defined.

(** C4: the dtype is selected to represent the digits 0 to [p - 1], and for
    a prime above [2^32] the last branch, [uint32], does not.  With the
    prime [4294967311 = 2^32 + 15], precision 1 and [n = 4294967310], the
    expansion of [n mod p^k] is the one digit [4294967310]; construction
    raises [OverflowError] under NumPy 2 and stores the digit 14 under
    NumPy 1. *)
Lemma init_int_natural_wide_prime :
  Znumtheory.prime 4294967311 /\
  (0 <= 4294967310 /\ 2 <= 4294967311 /\ 1 <= 1) /\
  Spec.expansion 4294967311 1 (4294967310 mod 4294967311 ^ 1) = [4294967310] /\
  __init__ NEP50 (IntValue 4294967310) 4294967311 1 = Raise OverflowError /\
  __init__ Legacy (IntValue 4294967310) 4294967311 1
  = Ok (mkPadic 4294967311 1 uint32 [14]).
Proof.
  split; [exact prime_4294967311|].
  repeat split; solve [lia | vm_compute; reflexivity].
Qed.

(** Inside the range of primes whose digits the selected dtype holds: for
    every prime [2 <= p <= 2^32], every precision [k] and every digit
    sequence [d] of length exactly [k] with digits in [0, p-1], construction
    from [d] succeeds and stores [d] unchanged. *)
Theorem init_list_roundtrip (r : promotion) (d : list Z) (p k : Z) :
  2 <= p <= 2 ^ 32 -> Z.of_nat (length d) = k -> Spec.in_range p d ->
  __init__ r (ListValue (map PyInt d)) p k = Ok (mkPadic p k (select_dtype p) d).
Proof.
  intros Hp Hk Hd. cbn [__init__]; unfold init_list, py_slice_to.
  destruct (Z.leb_spec 0 k) as [_|Hneg]; [|lia].
  rewrite <- Hk, Nat2Z.id, <- (length_map PyInt d), firstn_all.
  rewrite array_in_range by (lia || assumption). reflexivity.
Qed.

Lemma init_list_roundtrip_witness :
  __init__ NEP50 (ListValue (map PyInt [3; 4; 4; 0])) 5 4
  = Ok (mkPadic 5 4 uint8 [3; 4; 4; 0]).
Proof.
  apply (init_list_roundtrip NEP50 [3; 4; 4; 0] 5 4); [lia | reflexivity |].
  repeat constructor; lia.
Defined.

(** C7: the one-digit sequence [[4294967310]] has length 1 and its digit is
    in [0, p-1] for the prime [4294967311 = 2^32 + 15], yet construction
    with precision 1 does not store it as given: the [uint32] array selected
    for this prime cannot represent the digit.  NumPy 2 raises
    [OverflowError], NumPy 1 stores [[14]]. *)
Lemma init_list_roundtrip_wide_prime :
  Znumtheory.prime 4294967311 /\
  (2 <= 4294967311 /\ Z.of_nat (length [4294967310]) = 1
   /\ 0 <= 4294967310 < 4294967311) /\
  __init__ NEP50 (ListValue [PyInt 4294967310]) 4294967311 1 = Raise OverflowError /\
  __init__ Legacy (ListValue [PyInt 4294967310]) 4294967311 1
  = Ok (mkPadic 4294967311 1 uint32 [14]).
Proof.
  split; [exact prime_4294967311|].
  repeat split; solve [lia | vm_compute; reflexivity].
Qed.

(** X24: for every integer [n], negative ones included, every prime
    [2 <= p <= 2^32] and every precision [k >= 0], construction from [n]
    succeeds, its digits lie in [0, p-1] and are the little-endian
    base-[p] expansion of [n mod p^k] (floor division and modulo), and
    constructing from [n mod p^k] gives the same value. *)
Theorem init_int_any_sign (r : promotion) (n p k : Z) :
  2 <= p <= 2 ^ 32 -> 0 <= k ->
  let ds := Spec.expansion p (Z.to_nat k) (n mod p ^ k) in
  __init__ r (IntValue n) p k = Ok (mkPadic p k (select_dtype p) ds)
  /\ Spec.in_range p ds
  /\ Spec.value p ds = n mod p ^ k
  /\ __init__ r (IntValue (n mod p ^ k)) p k = __init__ r (IntValue n) p k.
Proof.
  intros Hp Hk ds. subst ds.
  assert (E : Spec.expansion p (Z.to_nat k) (n mod p ^ k)
              = Spec.expansion p (Z.to_nat k) n)
    by (apply expansion_mod_precision; lia).
  repeat split.
  - rewrite init_int_expansion by lia. unfold range_len. now rewrite E.
  - apply expansion_in_range. lia.
  - rewrite E, value_expansion by lia. now rewrite Z2Nat.id by lia.
  - rewrite !init_int_expansion by lia. unfold range_len. now rewrite E.
Qed.

Lemma init_int_any_sign_witness :
  __init__ NEP50 (IntValue (-1)) 5 3 = Ok (mkPadic 5 3 uint8 [4; 4; 4]).
Proof.
  refine (proj1 (init_int_any_sign NEP50 (-1) 5 3 _ _)); lia.
Defined.

(** C10: with the prime [4294967311 = 2^32 + 15] and precision 1 the
    integer [-1] has the single digit [(-1) mod p = 4294967310], which lies
    in [0, p-1]; the [uint32] array selected for this prime cannot represent
    it.  Construction raises [OverflowError] under NumPy 2 and stores the
    digit 14 under NumPy 1. *)
Lemma init_int_any_sign_wide_prime :
  Znumtheory.prime 4294967311 /\
  (2 <= 4294967311 /\ 0 <= 1) /\
  Spec.expansion 4294967311 1 ((-1) mod 4294967311 ^ 1) = [4294967310] /\
  __init__ NEP50 (IntValue (-1)) 4294967311 1 = Raise OverflowError /\
  __init__ Legacy (IntValue (-1)) 4294967311 1
  = Ok (mkPadic 4294967311 1 uint32 [14]).
Proof.
  split; [exact prime_4294967311|].
  repeat split; solve [lia | vm_compute; reflexivity].
Qed.

(** ** The prime check *)

Lemma no_mismatch_ok {A : Type} (x : A) : no_mismatch (Ok x).
Proof. discriminate. Qed.

Lemma no_mismatch_bind {A B : Type} (c : outcome A) (k : A -> outcome B) :
  no_mismatch c -> (forall x, no_mismatch (k x)) -> no_mismatch (bind c k).
Proof.
  intros Hc Hk. destruct c as [x|e]; simpl; [apply Hk|].
  intros H. apply Hc. now injection H as ->.
Qed.

Lemma no_mismatch_for_range {S : Type} (body : nat -> S -> outcome S) start count s :
  (forall i s', no_mismatch (body i s')) ->
  no_mismatch (for_range body start count s).
Proof.
  intros Hbody. revert start s.
  induction count as [|c IH]; intros start s; simpl.
  - apply no_mismatch_ok.
  - apply no_mismatch_bind; auto.
Qed.

Lemma no_mismatch_py_binop op a b : no_mismatch (py_binop op a b).
Proof. destruct op; simpl; try destruct (b =? 0); discriminate. Qed.

Lemma no_mismatch_weak_dtype r t z : no_mismatch (weak_dtype r t z).
Proof.
  destruct r; simpl; [destruct (fits int64 z) | destruct (fits t z)]; discriminate.
Qed.

#[local] Hint Resolve no_mismatch_ok no_mismatch_py_binop no_mismatch_weak_dtype : mismatch.

Ltac no_mismatch_steps :=
  repeat first
    [ apply no_mismatch_ok
    | apply no_mismatch_bind; [solve [auto with mismatch] | intros ?]
    | match goal with
      | |- no_mismatch (let '(_, _) := ?s in _) => destruct s
      | |- no_mismatch (if ?c then _ else _) => destruct c
      end
    | solve [auto with mismatch] ].

Lemma no_mismatch_arith r op x y : no_mismatch (arith r op x y).
Proof. destruct x, y; simpl; no_mismatch_steps. Qed.

Lemma no_mismatch_store r t x : no_mismatch (store r t x).
Proof. destruct x, r; simpl; no_mismatch_steps; discriminate. Qed.

#[local] Hint Resolve no_mismatch_arith no_mismatch_store : mismatch.

Lemma no_mismatch_array r t values : no_mismatch (array r t values).
Proof. induction values; simpl; no_mismatch_steps. Qed.

Lemma no_mismatch_getitem {A : Type} (l : list A) i : no_mismatch (py_getitem l i).
Proof. unfold py_getitem. destruct (l !! i); discriminate. Qed.

Lemma no_mismatch_setitem {A : Type} (l : list A) i v : no_mismatch (py_setitem l i v).
Proof. unfold py_setitem. no_mismatch_steps; discriminate. Qed.

#[local] Hint Resolve no_mismatch_array no_mismatch_getitem no_mismatch_setitem : mismatch.

Lemma no_mismatch_init_list r value p k :
  no_mismatch (__init__ r (ListValue value) p k).
Proof. cbn [__init__]; unfold init_list. no_mismatch_steps. Qed.

Lemma no_mismatch_digit x i : no_mismatch (digit x i).
Proof. unfold digit. no_mismatch_steps. Qed.

#[local] Hint Resolve no_mismatch_init_list no_mismatch_digit : mismatch.

Lemma no_mismatch_digit_or_zero x i : no_mismatch (digit_or_zero x i).
Proof. unfold digit_or_zero. no_mismatch_steps. Qed.

#[local] Hint Resolve no_mismatch_digit_or_zero : mismatch.

Lemma no_mismatch_add_body r a b i s : no_mismatch (add_body r a b i s).
Proof. unfold add_body. no_mismatch_steps. Qed.

Lemma no_mismatch_sub_body r a b i s : no_mismatch (sub_body r a b i s).
Proof. unfold sub_body. no_mismatch_steps. Qed.

Lemma no_mismatch_mul_inner r a b i j s : no_mismatch (mul_inner r a b i j s).
Proof. unfold mul_inner. no_mismatch_steps. Qed.

Lemma no_mismatch_mul_outer r a b i s : no_mismatch (mul_outer r a b i s).
Proof.
  unfold mul_outer. apply no_mismatch_bind.
  - apply no_mismatch_for_range. intros. apply no_mismatch_mul_inner.
  - intros [result carry]. auto with mismatch.
Qed.

Section PrimeCheck.

Variable r : promotion.
Variables a b : PadicInteger.

Lemma add_mismatch : __add__ r a b = Raise OperandMismatch <-> prime a <> prime b.
Proof.
  unfold __add__. destruct (Z.eqb_spec (prime a) (prime b)) as [E|N]; simpl.
  - split; [|contradiction]. intros H. exfalso. revert H.
    apply no_mismatch_bind.
    + apply no_mismatch_for_range. intros. apply no_mismatch_add_body.
    + intros [result c]. apply no_mismatch_init_list.
  - tauto.
Qed.

Lemma sub_mismatch : __sub__ r a b = Raise OperandMismatch <-> prime a <> prime b.
Proof.
  unfold __sub__. destruct (Z.eqb_spec (prime a) (prime b)) as [E|N]; simpl.
  - split; [|contradiction]. intros H. exfalso. revert H.
    apply no_mismatch_bind.
    + apply no_mismatch_for_range. intros. apply no_mismatch_sub_body.
    + intros [result c]. apply no_mismatch_init_list.
  - tauto.
Qed.

Lemma mul_mismatch : __mul__ r a b = Raise OperandMismatch <-> prime a <> prime b.
Proof.
  unfold __mul__. destruct (Z.eqb_spec (prime a) (prime b)) as [E|N]; simpl.
  - split; [|contradiction]. intros H. exfalso. revert H.
    apply no_mismatch_bind.
    + apply no_mismatch_for_range. intros. apply no_mismatch_mul_outer.
    + intros result. apply no_mismatch_init_list.
  - tauto.
Qed.

End PrimeCheck.

(** C5: each of add, subtract and multiply fails with [OperandMismatch]
    exactly when the primes differ.  The statement ranges over all
    operands, so with differing primes the outcome is [OperandMismatch]
    whatever the digits are, also where reading them would raise: the check
    comes before any digit is read.  The operators are functions of their
    operands and assign to no attribute of them, so the operands are the
    same values afterwards. *)
Theorem operand_mismatch_iff (r : promotion) (a b : PadicInteger) :
  (__add__ r a b = Raise OperandMismatch <-> prime a <> prime b)
  /\ (__sub__ r a b = Raise OperandMismatch <-> prime a <> prime b)
  /\ (__mul__ r a b = Raise OperandMismatch <-> prime a <> prime b).
Proof.
  split; [apply add_mismatch | split; [apply sub_mismatch | apply mul_mismatch]].
Qed.

(** ** Short digit sequences *)

(** C6: [PadicInteger([1], 5, 2)] is accepted by the constructor and keeps
    one digit for precision 2; each operator then reads [digits[1]] and
    raises [IndexError] instead of treating the missing digit as 0. *)
Theorem operators_raise_on_short_digits (r : promotion) :
  let x := mkPadic 5 2 uint8 [1] in
  __init__ r (ListValue [PyInt 1]) 5 2 = Ok x
  /\ __add__ r x x = Raise IndexError
  /\ __sub__ r x x = Raise IndexError
  /\ __mul__ r x x = Raise IndexError.
Proof. destruct r; vm_compute; repeat split; reflexivity. Qed.

(** ** Commutativity of addition *)

Lemma promote_types_comm (t u : NumPy.dtype) : promote_types t u = promote_types u t.
Proof. destruct t, u; reflexivity. Qed.

Lemma arith_add_comm (r : promotion) (x y : scalar) :
  arith r Add x y = arith r Add y x.
Proof.
  destruct x as [a|t a], y as [b|u b]; simpl;
    rewrite ?(Z.add_comm b a), ?(promote_types_comm u t); reflexivity.
Qed.

Lemma digit_or_zero_raise (x : PadicInteger) (i : nat) (e : exn) :
  digit_or_zero x i = Raise e -> e = IndexError.
Proof.
  unfold digit_or_zero, digit, py_getitem.
  destruct (Z.of_nat i <? precision x); [|discriminate].
  destruct (digits x !! i); simpl; congruence.
Qed.

Lemma add_body_comm (r : promotion) (a b : PadicInteger) (i : nat) s :
  prime a = prime b -> add_body r a b i s = add_body r b a i s.
Proof.
  intros E. unfold add_body. destruct s as [result carry]. rewrite E.
  destruct (digit_or_zero a i) as [x|ea] eqn:Ha,
           (digit_or_zero b i) as [y|eb] eqn:Hb; simpl.
  - now rewrite arith_add_comm.
  - reflexivity.
  - reflexivity.
  - apply digit_or_zero_raise in Ha, Hb. congruence.
Qed.

(** X1: addition is commutative on all operands, in range or not, short or
    not: the two orders run the same steps and end alike, wrap-around and
    exceptions included. *)
Lemma add_comm (r : promotion) (a b : PadicInteger) : __add__ r a b = __add__ r b a.
Proof.
  unfold __add__. rewrite (Z.eqb_sym (prime b) (prime a)).
  destruct (Z.eqb_spec (prime a) (prime b)) as [E|N]; simpl; [|reflexivity].
  rewrite (Z.max_comm (precision b) (precision a)), <- E.
  erewrite for_range_ext; [reflexivity|].
  intros i s. now apply add_body_comm.
Qed.

(** ** Arithmetic that stays inside the storage width *)

Lemma pow_bits_pos (t : NumPy.dtype) : 0 < 2 ^ bits t.
Proof. destruct t; simpl; lia. Qed.

Section Tame.

Variable r : promotion.
Variable t : NumPy.dtype.
Hypothesis t_unsigned : t <> int64.

Lemma bits_unsigned : 2 ^ bits t <= 2 ^ 32.
Proof. destruct t; simpl; try lia. contradiction. Qed.

Lemma wrap_in_range (u : NumPy.dtype) (v : Z) :
  carrier t u -> 0 <= v < 2 ^ bits t -> wrap u v = v.
Proof.
  pose proof bits_unsigned as Hb.
  intros [->| ->] Hv; unfold wrap.
  - assert (lo t = 0) as -> by (destruct t; try reflexivity; contradiction).
    rewrite Z.sub_0_r, Z.add_0_r. apply Z.mod_small. lia.
  - simpl lo; simpl bits. rewrite Z.mod_small; lia.
Qed.

Lemma fits_in_range (u : NumPy.dtype) (v : Z) :
  carrier t u -> 0 <= v < 2 ^ bits t -> fits u v = true.
Proof.
  pose proof bits_unsigned as Hb.
  intros [->| ->] Hv; unfold fits; apply andb_true_iff; split;
    try apply Z.leb_le; try apply Z.ltb_lt.
  - destruct t; simpl; try lia; contradiction.
  - destruct t; simpl in *; try lia; contradiction.
  - simpl. lia.
  - simpl. lia.
Qed.

Lemma carrier_promote (u u' : NumPy.dtype) :
  carrier t u -> carrier t u' -> carrier t (promote_types u u').
Proof.
  unfold carrier. intros [->| ->] [->| ->]; destruct t; simpl; auto.
Qed.

Lemma carrier_weak (u : NumPy.dtype) (z : Z) :
  carrier t u -> 0 <= z < 2 ^ bits t ->
  exists u', carrier t u' /\ weak_dtype r u z = Ok u'.
Proof.
  intros Hu Hz. destruct r; simpl.
  - rewrite (fits_in_range int64 z) by (unfold carrier; auto).
    exists (promote_types u int64). split; [|reflexivity].
    apply carrier_promote; unfold carrier; auto.
  - rewrite (fits_in_range u z) by assumption. eauto.
Qed.

(** As long as the exact result is in the range of [t], a NumPy operation on
    tame operands returns it, in both promotion regimes. *)
Lemma arith_tame (op : binop) (x y : scalar) (v : Z) :
  tame t x -> tame t y -> is_np x \/ is_np y ->
  ufunc op (payload x) (payload y) = v -> 0 <= v < 2 ^ bits t ->
  exists u, carrier t u /\ arith r op x y = Ok (Np u v).
Proof.
  intros Hx Hy Hnp Hv Hr.
  destruct x as [a|u a], y as [b|u' b]; simpl in *.
  - tauto.
  - destruct Hy as [Hu' Hb].
    destruct (carrier_weak u' a Hu' Hx) as (w & Hw & ->). simpl.
    exists w. split; [assumption|]. now rewrite Hv, wrap_in_range.
  - destruct Hx as [Hu Ha].
    destruct (carrier_weak u b Hu Hy) as (w & Hw & ->). simpl.
    exists w. split; [assumption|]. now rewrite Hv, wrap_in_range.
  - destruct Hx as [Hu Ha], Hy as [Hu' Hb].
    exists (promote_types u u'). split; [now apply carrier_promote|].
    rewrite Hv, wrap_in_range; auto using carrier_promote.
Qed.

(** Digits cast into the array unchanged. *)
Lemma array_digit_scalars (p : Z) (xs : list scalar) :
  p <= 2 ^ bits t -> Forall (digit_scalar t p) xs ->
  array r t xs = Ok (map payload xs).
Proof.
  intros Hp. induction 1 as [|x xs Hx _ IH]; simpl; [reflexivity|].
  rewrite IH. destruct x as [z|u z]; simpl in *.
  - subst z. rewrite (fits_in_range t 0); [reflexivity | left; reflexivity |].
    pose proof (pow_bits_pos t). lia.
  - destruct Hx as [Hu Hz].
    rewrite (wrap_in_range t z); [reflexivity | left; reflexivity | lia].
Qed.

End Tame.

(** ** Reading the digits of a well-formed operand *)

Lemma select_dtype_unsigned (p : Z) : select_dtype p <> int64.
Proof.
  unfold select_dtype.
  destruct (p <? 256); [|destruct (p <? 65536)]; discriminate.
Qed.

Lemma nth_in_range (p : Z) (ds : list Z) (i : nat) :
  0 < p -> Spec.in_range p ds -> 0 <= nth i ds 0 < p.
Proof.
  intros Hp Hds. destruct (Nat.lt_ge_cases i (length ds)) as [Hi|Hi].
  - eapply (proj1 (List.Forall_forall _ ds) Hds). now apply nth_In.
  - rewrite nth_overflow by assumption. lia.
Qed.

Lemma digit_well_formed (x : PadicInteger) (i : nat) :
  well_formed x -> Z.of_nat i < precision x ->
  digit x i = Ok (Np (select_dtype (prime x)) (nth i (digits x) 0)).
Proof.
  intros [Hlen _ Ht] Hi. unfold digit, py_getitem.
  destruct (digits x !! i) as [d|] eqn:E.
  - simpl. rewrite Ht. rewrite (nth_lookup_Some _ _ 0 _ E). reflexivity.
  - apply lookup_ge_None in E. lia.
Qed.

(** [digits[i] if i < precision else 0]: the digit as a NumPy scalar, or the
    Python integer 0 past the precision; either way its value is the
    [i]-th digit with missing digits read as 0. *)
Lemma digit_or_zero_well_formed (x : PadicInteger) (i : nat) :
  well_formed x -> 0 < prime x ->
  exists s, digit_or_zero x i = Ok s
    /\ payload s = nth i (digits x) 0
    /\ digit_scalar (select_dtype (prime x)) (prime x) s
    /\ (Z.of_nat i < precision x -> is_np s).
Proof.
  intros Hx Hp. unfold digit_or_zero.
  pose proof (nth_in_range (prime x) (digits x) i Hp (wf_range x Hx)) as Hn.
  destruct (Z.ltb_spec (Z.of_nat i) (precision x)) as [Hi|Hi].
  - rewrite digit_well_formed by assumption.
    eexists. split; [reflexivity|]. simpl. unfold carrier. auto.
  - exists (PyInt 0). split; [reflexivity|]. simpl.
    assert (nth i (digits x) 0 = 0) as E
      by (apply nth_overflow; pose proof (wf_length x Hx); lia).
    rewrite E. repeat split; lia.
Qed.

Lemma digit_scalar_tame (t : NumPy.dtype) (p : Z) (x : scalar) :
  0 < p <= 2 ^ bits t -> digit_scalar t p x -> tame t x /\ 0 <= payload x < p.
Proof.
  intros Hp Hx. destruct x as [z|u z]; simpl in *.
  - subst z. lia.
  - destruct Hx as [Hu Hz]. repeat split; auto; lia.
Qed.

Lemma add_from_length (p : Z) (a b : list Z) (count i : nat) (carry : Z) :
  length (Spec.add_from p a b i count carry) = count.
Proof.
  revert i carry. induction count as [|c IH]; intros i carry; simpl; auto.
Qed.

Lemma sub_from_length (p : Z) (a b : list Z) (count i : nat) (borrow : Z) :
  length (Spec.sub_from p a b i count borrow) = count.
Proof.
  revert i borrow. induction count as [|c IH]; intros i borrow; simpl; auto.
Qed.

(** ** Addition where no digit sum leaves the storage width *)

Section AddExact.

Variable r : promotion.
Variables a b : PadicInteger.
Hypothesis wf_a : well_formed a.
Hypothesis wf_b : well_formed b.
Hypothesis same_prime : prime a = prime b.
Hypothesis prime_ge_2 : 2 <= prime a.
Hypothesis prime_fits_width : prime a < 2 ^ bits (select_dtype (prime a)).
Hypothesis no_overflow :
  forall i, nth i (digits a) 0 + nth i (digits b) 0 + 1
            < 2 ^ bits (select_dtype (prime a)).

#[local] Abbreviation p := (prime a).
#[local] Abbreviation t := (select_dtype (prime a)).

Lemma add_body_exact (i : nat) (result : list scalar) (carry : scalar) :
  Z.of_nat i < Z.max (precision a) (precision b) ->
  tame t carry -> 0 <= payload carry <= 1 ->
  let sum := nth i (digits a) 0 + nth i (digits b) 0 + payload carry in
  exists d c,
    add_body r a b i (result, carry) = Ok (result ++ [d], c)
    /\ digit_scalar t p d /\ payload d = sum mod p
    /\ tame t c /\ payload c = sum / p /\ 0 <= sum / p <= 1.
Proof.
  intros Hi Hc Hc01 sum.
  pose proof (select_dtype_unsigned p) as Hu.
  destruct (digit_or_zero_well_formed a i wf_a) as (x & Ex & Px & Dx & Nx); [lia|].
  destruct (digit_or_zero_well_formed b i wf_b) as (y & Ey & Py & Dy & Ny); [lia|].
  rewrite <- same_prime in Dy.
  destruct (digit_scalar_tame t p x) as [Tx Rx]; [lia | assumption |].
  destruct (digit_scalar_tame t p y) as [Ty Ry]; [lia | assumption |].
  assert (Hnp : is_np x \/ is_np y).
  { destruct (Z.max_spec (precision a) (precision b)) as [[_ E]|[_ E]];
      rewrite E in Hi; auto. }
  pose proof (no_overflow i) as Hroom. rewrite <- Px, <- Py in Hroom.
  assert (Hsum : 0 <= sum < 2 * p) by (subst sum; lia).
  assert (Hdiv : 0 <= sum / p <= 1).
  { split; [apply Z.div_pos; lia|].
    assert (sum / p < 2) by (apply Z.div_lt_upper_bound; lia). lia. }
  assert (Hmod : 0 <= sum mod p < p) by (apply Z.mod_pos_bound; lia).
  destruct (arith_tame r t Hu Add x y (payload x + payload y))
    as (u1 & Hu1 & E1); auto; [lia|].
  destruct (arith_tame r t Hu Add (Np u1 (payload x + payload y)) carry sum)
    as (u2 & Hu2 & E2); simpl; auto; [split; [assumption|lia] | subst sum; lia | lia |].
  assert (Tp : tame t (PyInt p)) by (simpl; lia).
  assert (Ts : tame t (Np u2 sum)) by (simpl; split; [assumption|lia]).
  assert (Np0 : (p =? 0) = false) by (apply Z.eqb_neq; lia).
  destruct (arith_tame r t Hu Mod (Np u2 sum) (PyInt p) (sum mod p))
    as (u3 & Hu3 & E3); simpl; auto; [now rewrite Np0 | lia |].
  destruct (arith_tame r t Hu FloorDiv (Np u2 sum) (PyInt p) (sum / p))
    as (u4 & Hu4 & E4); simpl; auto; [now rewrite Np0 | lia |].
  exists (Np u3 (sum mod p)), (Np u4 (sum / p)).
  unfold add_body. rewrite Ex, Ey. cbn [bind]. rewrite E1. cbn [bind].
  rewrite E2. cbn [bind]. rewrite E3. cbn [bind]. rewrite E4. cbn [bind].
  simpl. repeat split; auto; lia.
Qed.

Lemma add_loop_exact (count i : nat) (result : list scalar) (carry : scalar) :
  Z.of_nat (i + count) <= Z.max (precision a) (precision b) ->
  tame t carry -> 0 <= payload carry <= 1 ->
  exists ds c,
    for_range (add_body r a b) i count (result, carry) = Ok (result ++ ds, c)
    /\ Forall (digit_scalar t p) ds
    /\ map payload ds
       = Spec.add_from p (digits a) (digits b) i count (payload carry).
Proof.
  revert i result carry.
  induction count as [|count IH]; intros i result carry Hi Hc Hc01.
  - exists [], carry. simpl. rewrite app_nil_r. auto.
  - destruct (add_body_exact i result carry) as (d & c & E & Hd & Pd & Tc & Pc & Rc);
      [lia | assumption | assumption |].
    destruct (IH (S i) (result ++ [d]) c) as (ds & c' & E' & Hds & Pds);
      [lia | assumption | lia |].
    exists (d :: ds), c'. cbn [for_range]. rewrite E. cbn [bind]. rewrite E'.
    rewrite <- app_assoc. simpl. rewrite Pd, Pds, Pc. auto.
Qed.

(** Both promotion regimes compute the digits of section 4.2 when no digit
    sum, carry included, can leave the storage width. *)
Lemma add_exact :
  let n := Z.max (precision a) (precision b) in
  __add__ r a b
  = Ok (mkPadic p n t (Spec.add p (digits a) (digits b) (Z.to_nat n))).
Proof.
  intros n. unfold __add__. rewrite <- same_prime, Z.eqb_refl. simpl negb. cbv iota.
  fold n.
  destruct (add_loop_exact (range_len n) 0 [] (PyInt 0)) as (ds & c & E & Hds & Pds).
  { unfold range_len. subst n. pose proof (wf_length a wf_a). lia. }
  { simpl. pose proof (pow_bits_pos t). lia. }
  { simpl. lia. }
  rewrite E. cbn [bind]. simpl app. cbn [__init__]; unfold init_list.
  assert (Hlen : length ds = range_len n).
  { rewrite <- (length_map payload), Pds. apply add_from_length. }
  assert (Hslice : py_slice_to ds n = ds).
  { unfold py_slice_to. pose proof (wf_length a wf_a).
    destruct (Z.leb_spec 0 n); [|lia].
    fold (range_len n). rewrite <- Hlen. apply firstn_all. }
  rewrite Hslice, (array_digit_scalars r t (select_dtype_unsigned p) p ds) by (lia || assumption).
  cbn [bind]. rewrite Pds. reflexivity.
Qed.

End AddExact.

(** In particular when twice the prime fits the storage width. *)
Lemma add_exact_safe_range (r : promotion) (a b : PadicInteger) :
  well_formed a -> well_formed b -> prime a = prime b -> 2 <= prime a ->
  2 * prime a <= 2 ^ bits (select_dtype (prime a)) ->
  let n := Z.max (precision a) (precision b) in
  __add__ r a b
  = Ok (mkPadic (prime a) n (select_dtype (prime a))
          (Spec.add (prime a) (digits a) (digits b) (Z.to_nat n))).
Proof.
  intros Ha Hb E Hp Hroom. apply add_exact; try assumption; [lia|].
  intros i.
  pose proof (nth_in_range (prime a) (digits a) i ltac:(lia) (wf_range a Ha)).
  pose proof (nth_in_range (prime b) (digits b) i ltac:(lia) (wf_range b Hb)).
  lia.
Qed.

(** ** What the digit algorithms of the specification represent *)

Section SpecValues.

Variable p : Z.
Hypothesis p_pos : 0 < p.

Lemma value_skipn (ds : list Z) (i : nat) :
  Spec.value p (skipn i ds) = nth i ds 0 + p * Spec.value p (skipn (S i) ds).
Proof.
  revert ds. induction i as [|i IH]; intros [|d ds]; simpl; try lia.
  - destruct ds; simpl; lia.
  - apply IH.
Qed.

(** Carry-propagating addition represents the sum modulo [p ^ count]. *)
Lemma value_add_from (a b : list Z) (count i : nat) (carry : Z) :
  Spec.value p (Spec.add_from p a b i count carry)
  = (Spec.value p (skipn i a) + Spec.value p (skipn i b) + carry)
    mod p ^ Z.of_nat count.
Proof.
  revert i carry. induction count as [|c IH]; intros i carry.
  - simpl. now rewrite Z.mod_1_r.
  - cbn [Spec.add_from Spec.value]. rewrite IH.
    rewrite (value_skipn a i), (value_skipn b i).
    set (A := Spec.value p (skipn (S i) a)).
    set (B := Spec.value p (skipn (S i) b)).
    set (s := nth i a 0 + nth i b 0 + carry).
    rewrite Nat2Z.inj_succ, Z.pow_succ_r by lia.
    assert (Hq : 0 < p ^ Z.of_nat c) by (apply Z.pow_pos_nonneg; lia).
    replace (nth i a 0 + p * A + (nth i b 0 + p * B) + carry)
      with (s + (A + B) * p) by (subst s; ring).
    rewrite Z.rem_mul_r by lia.
    rewrite Z.mod_add, Z.div_add by lia.
    f_equal. f_equal. f_equal. ring.
Qed.

Lemma value_add (a b : list Z) (len : nat) :
  Spec.value p (Spec.add p a b len)
  = (Spec.value p a + Spec.value p b) mod p ^ Z.of_nat len.
Proof.
  unfold Spec.add. rewrite value_add_from. simpl skipn. now rewrite Z.add_0_r.
Qed.

(** Borrow-propagating subtraction represents the difference modulo
    [p ^ count]; this needs the digits in range, so that [diff] stays in
    [0, 2p). *)
Lemma value_sub_from (a b : list Z) (count i : nat) (borrow : Z) :
  Spec.in_range p a -> Spec.in_range p b -> 0 <= borrow <= 1 ->
  Spec.value p (Spec.sub_from p a b i count borrow)
  = (Spec.value p (skipn i a) - Spec.value p (skipn i b) - borrow)
    mod p ^ Z.of_nat count.
Proof.
  intros Ha Hb. revert i borrow. induction count as [|c IH]; intros i borrow Hbw.
  - simpl. now rewrite Z.mod_1_r.
  - cbn [Spec.sub_from Spec.value].
    pose proof (nth_in_range p a i p_pos Ha) as Hai.
    pose proof (nth_in_range p b i p_pos Hb) as Hbi.
    set (diff := nth i a 0 - nth i b 0 - borrow + p) in *.
    assert (Hd : 0 <= diff < 2 * p) by (subst diff; lia).
    rewrite IH by (destruct (diff <? p); lia).
    rewrite (value_skipn a i), (value_skipn b i).
    set (A := Spec.value p (skipn (S i) a)).
    set (B := Spec.value p (skipn (S i) b)).
    rewrite Nat2Z.inj_succ, Z.pow_succ_r by lia.
    assert (Hq : 0 < p ^ Z.of_nat c) by (apply Z.pow_pos_nonneg; lia).
    replace (nth i a 0 + p * A - (nth i b 0 + p * B) - borrow)
      with (diff + (A - B - 1) * p) by (subst diff; ring).
    rewrite Z.rem_mul_r by lia.
    rewrite Z.mod_add, Z.div_add by lia.
    f_equal. f_equal. f_equal.
    destruct (Z.ltb_spec diff p) as [Hlt|Hge].
    + rewrite Z.div_small by lia. ring.
    + assert (diff / p = 1) as ->; [|ring].
      symmetry. apply (Z.div_unique diff p 1 (diff - p)); lia.
Qed.

Lemma value_sub (a b : list Z) (len : nat) :
  Spec.in_range p a -> Spec.in_range p b ->
  Spec.value p (Spec.subtract p a b len)
  = (Spec.value p a - Spec.value p b) mod p ^ Z.of_nat len.
Proof.
  intros Ha Hb. unfold Spec.subtract. rewrite value_sub_from by (assumption || lia).
  simpl skipn. now rewrite Z.sub_0_r.
Qed.

End SpecValues.

(** ** Subtraction under NEP 50 where no digit difference leaves the storage width *)

Lemma digit_or_zero_exact (x : PadicInteger) (i : nat) :
  well_formed x ->
  digit_or_zero x i
  = Ok (if Z.of_nat i <? precision x
        then Np (select_dtype (prime x)) (nth i (digits x) 0)
        else PyInt 0).
Proof.
  intros Hx. unfold digit_or_zero.
  destruct (Z.ltb_spec (Z.of_nat i) (precision x)) as [Hi|Hi]; [|reflexivity].
  now apply digit_well_formed.
Qed.

Lemma wrap_unsigned (t : NumPy.dtype) (v : Z) :
  t <> int64 -> wrap t v = v mod 2 ^ bits t.
Proof.
  intros Ht. unfold wrap.
  assert (lo t = 0) as -> by (destruct t; try reflexivity; contradiction).
  now rewrite Z.sub_0_r, Z.add_0_r.
Qed.

(** Under NEP 50 every operation of a [t] scalar with a [t] scalar or with a
    Python integer that fits [t] is an operation of [t]. *)
Lemma arith_nep50 (t : NumPy.dtype) (op : binop) (x y : scalar) :
  t <> int64 ->
  (match x with PyInt z => fits t z = true | Np u _ => u = t end) ->
  (match y with PyInt z => fits t z = true | Np u _ => u = t end) ->
  is_np x \/ is_np y ->
  arith NEP50 op x y
  = Ok (Np t (ufunc op (payload x) (payload y) mod 2 ^ bits t)).
Proof.
  intros Ht Hx Hy Hnp. destruct x as [a|u a], y as [b|u' b]; simpl in *.
  - tauto.
  - subst u'. rewrite Hx. simpl. now rewrite wrap_unsigned.
  - subst u. rewrite Hy. simpl. now rewrite wrap_unsigned.
  - subst u u'. assert (promote_types t t = t) as -> by (destruct t; reflexivity).
    now rewrite wrap_unsigned.
Qed.

Section SubExact.

Variables a b : PadicInteger.
Hypothesis wf_a : well_formed a.
Hypothesis wf_b : well_formed b.
Hypothesis same_prime : prime a = prime b.
Hypothesis prime_ge_2 : 2 <= prime a.
Hypothesis prime_fits_width : prime a < 2 ^ bits (select_dtype (prime a)).
Hypothesis no_overflow :
  forall i, nth i (digits a) 0 - nth i (digits b) 0 + prime a
            < 2 ^ bits (select_dtype (prime a)).

#[local] Abbreviation p := (prime a).
#[local] Abbreviation t := (select_dtype (prime a)).

Lemma sub_body_exact (i : nat) (result : list scalar) (borrow : Z) :
  Z.of_nat i < Z.max (precision a) (precision b) ->
  0 <= borrow <= 1 ->
  let diff := nth i (digits a) 0 - nth i (digits b) 0 - borrow + p in
  sub_body NEP50 a b i (result, borrow)
  = Ok (result ++ [Np t (diff mod p)], if diff <? p then 1 else 0).
Proof.
  intros Hi Hbw diff.
  pose proof (select_dtype_unsigned p) as Hu.
  pose proof (pow_bits_pos t) as HM.
  pose proof (nth_in_range p (digits a) i ltac:(lia) (wf_range a wf_a)) as Ha.
  pose proof (nth_in_range (prime b) (digits b) i ltac:(lia) (wf_range b wf_b)) as Hb.
  rewrite <- same_prime in Hb.
  assert (Hfit : forall z, 0 <= z < 2 ^ bits t -> fits t z = true).
  { intros z Hz. apply (fits_in_range t Hu); [left; reflexivity | assumption]. }
  unfold sub_body. rewrite (digit_or_zero_exact a i wf_a), (digit_or_zero_exact b i wf_b).
  rewrite <- same_prime. cbn [bind].
  set (x := if Z.of_nat i <? precision a then _ else _).
  set (y := if Z.of_nat i <? precision b then _ else _).
  assert (Px : payload x = nth i (digits a) 0).
  { subst x. destruct (Z.ltb_spec (Z.of_nat i) (precision a)); [reflexivity|].
    simpl. symmetry. apply nth_overflow. pose proof (wf_length a wf_a). lia. }
  assert (Py : payload y = nth i (digits b) 0).
  { subst y. destruct (Z.ltb_spec (Z.of_nat i) (precision b)); [reflexivity|].
    simpl. symmetry. apply nth_overflow. pose proof (wf_length b wf_b). lia. }
  assert (Hnp : is_np x \/ is_np y).
  { subst x y. destruct (Z.ltb_spec (Z.of_nat i) (precision a));
      destruct (Z.ltb_spec (Z.of_nat i) (precision b)); simpl; auto. lia. }
  assert (Hx : match x with PyInt z => fits t z = true | Np u _ => u = t end).
  { subst x. destruct (Z.of_nat i <? precision a); auto. apply Hfit. lia. }
  assert (Hy : match y with PyInt z => fits t z = true | Np u _ => u = t end).
  { subst y. destruct (Z.of_nat i <? precision b); auto. apply Hfit. lia. }
  rewrite (arith_nep50 t Sub x y Hu Hx Hy Hnp). cbn [bind]. rewrite Px, Py.
  rewrite (arith_nep50 t Sub _ (PyInt borrow) Hu)
    by solve [reflexivity | apply Hfit; lia | left; exact I].
  cbn [bind payload ufunc].
  rewrite (arith_nep50 t Add _ (PyInt p) Hu)
    by solve [reflexivity | apply Hfit; lia | left; exact I].
  cbn [bind payload ufunc].
  rewrite Zminus_mod_idemp_l, Zplus_mod_idemp_l. fold diff.
  assert (Hd : 0 <= diff < 2 * p) by (subst diff; lia).
  pose proof (no_overflow i) as Hroom.
  rewrite (Z.mod_small diff) by (subst diff; lia).
  rewrite (arith_nep50 t Mod _ (PyInt p) Hu)
    by solve [reflexivity | apply Hfit; lia | left; exact I].
  cbn [bind payload ufunc].
  assert ((p =? 0) = false) as -> by (apply Z.eqb_neq; lia).
  pose proof (Z.mod_pos_bound diff p ltac:(lia)).
  rewrite (Z.mod_small (diff mod p)) by lia.
  unfold lt_py. simpl. reflexivity.
Qed.

Lemma sub_loop_exact (count i : nat) (result : list scalar) (borrow : Z) :
  Z.of_nat (i + count) <= Z.max (precision a) (precision b) ->
  0 <= borrow <= 1 ->
  exists ds bw,
    for_range (sub_body NEP50 a b) i count (result, borrow) = Ok (result ++ ds, bw)
    /\ Forall (digit_scalar t p) ds
    /\ map payload ds = Spec.sub_from p (digits a) (digits b) i count borrow.
Proof.
  revert i result borrow.
  induction count as [|count IH]; intros i result borrow Hi Hbw.
  - exists [], borrow. simpl. rewrite app_nil_r. auto.
  - cbn [for_range]. rewrite sub_body_exact by lia. cbn [bind].
    set (diff := nth i (digits a) 0 - nth i (digits b) 0 - borrow + p).
    destruct (IH (S i) (result ++ [Np t (diff mod p)]) (if diff <? p then 1 else 0))
      as (ds & bw & E & Hds & Pds); [lia | destruct (diff <? p); lia |].
    exists (Np t (diff mod p) :: ds), bw. rewrite E, <- app_assoc.
    split; [reflexivity|]. split.
    + constructor; [|assumption]. simpl. split; [left; reflexivity|].
      apply Z.mod_pos_bound. lia.
    + simpl. now rewrite Pds.
Qed.

(** With NumPy 2 the operator computes the digits of section 4.3 when no
    [a_digit - b_digit + prime] leaves the storage width. *)
Lemma sub_exact :
  let n := Z.max (precision a) (precision b) in
  __sub__ NEP50 a b
  = Ok (mkPadic p n t (Spec.subtract p (digits a) (digits b) (Z.to_nat n))).
Proof.
  intros n. unfold __sub__. rewrite <- same_prime, Z.eqb_refl. simpl negb. cbv iota.
  fold n.
  destruct (sub_loop_exact (range_len n) 0 [] 0) as (ds & bw & E & Hds & Pds).
  { unfold range_len. subst n. pose proof (wf_length a wf_a). lia. }
  { lia. }
  rewrite E. cbn [bind]. simpl app. cbn [__init__]; unfold init_list.
  assert (Hlen : length ds = range_len n).
  { rewrite <- (length_map payload), Pds. apply sub_from_length. }
  assert (Hslice : py_slice_to ds n = ds).
  { unfold py_slice_to. pose proof (wf_length a wf_a).
    destruct (Z.leb_spec 0 n); [|lia].
    fold (range_len n). rewrite <- Hlen. apply firstn_all. }
  rewrite Hslice, (array_digit_scalars NEP50 t (select_dtype_unsigned p) p ds)
    by (lia || assumption).
  cbn [bind]. rewrite Pds. reflexivity.
Qed.

End SubExact.

(** In particular when twice the prime fits the storage width. *)
Lemma sub_exact_safe_range (a b : PadicInteger) :
  well_formed a -> well_formed b -> prime a = prime b -> 2 <= prime a ->
  2 * prime a <= 2 ^ bits (select_dtype (prime a)) ->
  let n := Z.max (precision a) (precision b) in
  __sub__ NEP50 a b
  = Ok (mkPadic (prime a) n (select_dtype (prime a))
          (Spec.subtract (prime a) (digits a) (digits b) (Z.to_nat n))).
Proof.
  intros Ha Hb E Hp Hroom. apply sub_exact; try assumption; [lia|].
  intros i.
  pose proof (nth_in_range (prime a) (digits a) i ltac:(lia) (wf_range a Ha)).
  pose proof (nth_in_range (prime b) (digits b) i ltac:(lia) (wf_range b Hb)).
  lia.
Qed.

(** ** Schoolbook multiplication represents the exact product *)

Section MulValue.

Variable p : Z.
Hypothesis p_pos : 0 < p.

Lemma nth_insert_eq (l : list Z) (k : nat) (v : Z) :
  (k < length l)%nat -> nth k (<[k := v]> l) 0 = v.
Proof.
  intros Hk. rewrite nth_lookup, list_lookup_insert_eq by assumption. reflexivity.
Qed.

Lemma nth_insert_ne (l : list Z) (k m : nat) (v : Z) :
  k <> m -> nth m (<[k := v]> l) 0 = nth m l 0.
Proof.
  intros Hk. rewrite !nth_lookup, list_lookup_insert_ne by assumption. reflexivity.
Qed.

Lemma value_insert (l : list Z) (k : nat) (v : Z) :
  (k < length l)%nat ->
  Spec.value p (<[k := v]> l)
  = Spec.value p l + (v - nth k l 0) * p ^ Z.of_nat k.
Proof.
  revert k. induction l as [|d l IH]; intros k Hk; simpl in Hk; [lia|].
  destruct k as [|k]; cbn -[Z.of_nat Z.pow Z.mul Z.add Z.sub].
  - change (Z.of_nat 0) with 0. rewrite Z.pow_0_r. ring.
  - rewrite IH by lia. rewrite Nat2Z.inj_succ, Z.pow_succ_r by lia. ring.
Qed.

Lemma value_replicate_zero (n : nat) : Spec.value p (replicate n 0) = 0.
Proof. induction n as [|n IH]; simpl; [reflexivity|]. rewrite IH. ring. Qed.

Lemma value_segment (b : list Z) (j c : nat) :
  Spec.value p (firstn (S c) (skipn j b))
  = nth j b 0 + p * Spec.value p (firstn c (skipn (S j) b)).
Proof.
  revert b. induction j as [|j IH]; intros [|d b]; simpl.
  - rewrite firstn_nil. simpl. ring.
  - reflexivity.
  - rewrite firstn_nil. simpl. ring.
  - apply IH.
Qed.

(** One row: the row adds [ai * p^i * b] to the buffer, up to the residual
    carry, and leaves the positions past the row alone. *)
Lemma mul_row_value (ai : Z) (b : list Z) (i count j : nat)
      (result : list Z) (carry : Z) :
  (i + j + count <= length result)%nat ->
  let rc := Spec.mul_row p ai b i j count result carry in
  length (fst rc) = length result
  /\ (forall k, (i + j + count <= k)%nat -> nth k (fst rc) 0 = nth k result 0)
  /\ Spec.value p (fst rc) + snd rc * p ^ Z.of_nat (i + j + count)
     = Spec.value p result + carry * p ^ Z.of_nat (i + j)
       + ai * p ^ Z.of_nat (i + j) * Spec.value p (firstn count (skipn j b)).
Proof.
  revert j result carry.
  induction count as [|c IH]; intros j result carry Hlen rc; subst rc.
  - simpl. rewrite Nat.add_0_r. repeat split; auto. ring.
  - cbn [Spec.mul_row].
    set (acc := nth (i + j) result 0 + ai * nth j b 0 + carry).
    set (res1 := <[(i + j)%nat := acc mod p]> result).
    assert (Hlen1 : length res1 = length result) by apply length_insert.
    destruct (IH (S j) res1 (acc / p)) as (L & U & V); [lia|].
    split; [congruence|]. split.
    + intros k Hk. rewrite U by lia. subst res1. apply nth_insert_ne. lia.
    + replace (i + j + S c)%nat with (i + S j + c)%nat by lia.
      rewrite V. subst res1. rewrite value_insert by lia.
      rewrite value_segment.
      replace (Z.of_nat (i + S j)) with (Z.succ (Z.of_nat (i + j))) by lia.
      rewrite Z.pow_succ_r by lia.
      pose proof (Z.div_mod acc p ltac:(lia)) as Hacc.
      replace (acc mod p) with (acc - p * (acc / p)) by lia.
      subst acc. ring.
Qed.

(** All rows from [i] on. *)
Lemma mul_rows_value (a b : list Z) (kb : nat) (count i : nat) (result : list Z) :
  (length b <= kb)%nat ->
  (i + count + kb <= length result)%nat ->
  (forall k, (i + kb <= k)%nat -> nth k result 0 = 0) ->
  Spec.value p (Spec.mul_rows p a b kb i count result)
  = Spec.value p result
    + p ^ Z.of_nat i * Spec.value p (firstn count (skipn i a)) * Spec.value p b.
Proof.
  intros Hb. revert i result.
  induction count as [|c IH]; intros i result Hlen Hzero.
  - simpl. ring.
  - cbn [Spec.mul_rows].
    pose proof (mul_row_value (nth i a 0) b i kb 0 result 0 ltac:(lia)) as Hrow.
    destruct (Spec.mul_row p (nth i a 0) b i 0 kb result 0) as [res' c'] eqn:Erow.
    simpl in Hrow. destruct Hrow as (L & U & V).
    rewrite Nat.add_0_r in *. simpl skipn in V.
    rewrite (firstn_all2 b) in V by lia.
    rewrite IH.
    + rewrite value_insert by lia. rewrite U, Hzero by lia.
      rewrite value_segment.
      rewrite Nat2Z.inj_succ, Z.pow_succ_r by lia.
      replace (Spec.value p res') with
        (Spec.value p result + 0 * p ^ Z.of_nat i
         + nth i a 0 * p ^ Z.of_nat i * Spec.value p b
         - c' * p ^ Z.of_nat (i + kb)) by lia.
      ring.
    + rewrite length_insert. lia.
    + intros k Hk. rewrite nth_insert_ne by lia. rewrite U by lia.
      apply Hzero. lia.
Qed.

(** The buffer of [ka + kb] digits holds the exact product: nothing is
    truncated. *)
Lemma value_mul (a b : list Z) (ka kb : nat) :
  (length a <= ka)%nat -> (length b <= kb)%nat ->
  Spec.value p (Spec.multiply p a b ka kb) = Spec.value p a * Spec.value p b.
Proof.
  intros Ha Hb. unfold Spec.multiply. rewrite mul_rows_value.
  - rewrite value_replicate_zero. change (skipn 0 a) with a.
    rewrite firstn_all2 by lia.
    change (Z.of_nat 0) with 0. rewrite Z.pow_0_r. ring.
  - assumption.
  - rewrite length_replicate. lia.
  - intros k _. rewrite nth_lookup.
    destruct (replicate (ka + kb) 0 !! k) as [z|] eqn:E; [|reflexivity].
    apply lookup_replicate in E as [-> _]. reflexivity.
Qed.

End MulValue.

(** ** Multiplication where [prime * prime] fits the storage width *)

Lemma map_payload_insert (l : list scalar) (k : nat) (x : scalar) :
  map payload (<[k := x]> l) = <[k := payload x]> (map payload l).
Proof.
  revert k. induction l as [|y l IH]; intros [|k]; simpl; auto.
  now rewrite IH.
Qed.

Lemma map_payload_replicate (n : nat) :
  map payload (replicate n (PyInt 0)) = replicate n 0.
Proof. induction n as [|n IH]; simpl; [reflexivity|]. now rewrite IH. Qed.

Lemma py_getitem_in_range (l : list scalar) (k : nat) :
  (k < length l)%nat ->
  exists x, py_getitem l k = Ok x /\ l !! k = Some x
            /\ payload x = nth k (map payload l) 0.
Proof.
  intros Hk. unfold py_getitem.
  destruct (l !! k) as [x|] eqn:E.
  - exists x. repeat split.
    change 0 with (payload (PyInt 0)). rewrite map_nth.
    now rewrite (nth_lookup_Some _ _ _ _ E).
  - apply lookup_ge_None in E. lia.
Qed.

Lemma py_setitem_in_range {A : Type} (l : list A) (k : nat) (v : A) :
  (k < length l)%nat -> py_setitem l (Z.of_nat k) v = Ok (<[k := v]> l).
Proof.
  intros Hk. unfold py_setitem.
  destruct (Z.leb_spec 0 (Z.of_nat k)); [|lia].
  destruct (Z.ltb_spec (Z.of_nat k) (Z.of_nat (length l))); [|lia].
  simpl. now rewrite Nat2Z.id.
Qed.

Section MulExact.

Variable r : promotion.
Variables a b : PadicInteger.
Hypothesis wf_a : well_formed a.
Hypothesis wf_b : well_formed b.
Hypothesis same_prime : prime a = prime b.
Hypothesis prime_ge_2 : 2 <= prime a.
Hypothesis room : prime a * prime a <= 2 ^ bits (select_dtype (prime a)).

#[local] Abbreviation p := (prime a).
#[local] Abbreviation t := (select_dtype (prime a)).
#[local] Abbreviation ka := (Z.to_nat (precision a)).
#[local] Abbreviation kb := (Z.to_nat (precision b)).

Lemma prime_fits : p <= 2 ^ bits t.
Proof. nia. Qed.

Lemma mul_inner_exact (i j : nat) (result : list scalar) (carry : scalar) :
  (i < ka)%nat -> (j < kb)%nat -> (i + j < length result)%nat ->
  Forall (digit_scalar t p) result -> digit_scalar t p carry ->
  let acc := nth (i + j) (map payload result) 0
             + nth i (digits a) 0 * nth j (digits b) 0 + payload carry in
  exists d c,
    mul_inner r a b i j (result, carry) = Ok (<[(i + j)%nat := d]> result, c)
    /\ digit_scalar t p d /\ payload d = acc mod p
    /\ digit_scalar t p c /\ payload c = acc / p.
Proof.
  intros Hi Hj Hij Hres Hcarry acc.
  pose proof (select_dtype_unsigned p) as Hu.
  pose proof prime_fits as Hp.
  destruct (py_getitem_in_range result (i + j) Hij) as (x & Ex & Lx & Px).
  assert (Dx : digit_scalar t p x).
  { eapply (proj1 (Forall_lookup _ result) Hres). exact Lx. }
  destruct (digit_scalar_tame t p x) as [Tx Rx]; [lia | assumption |].
  destruct (digit_scalar_tame t p carry) as [Tc Rc]; [lia | assumption |].
  pose proof (nth_in_range p (digits a) i ltac:(lia) (wf_range a wf_a)) as Ha.
  pose proof (nth_in_range (prime b) (digits b) j ltac:(lia) (wf_range b wf_b)) as Hb.
  rewrite <- same_prime in Hb.
  set (ai := nth i (digits a) 0) in *. set (bj := nth j (digits b) 0) in *.
  assert (Hab : 0 <= ai * bj <= (p - 1) * (p - 1)) by nia.
  assert (Hacc : 0 <= acc < p * p) by (subst acc; rewrite <- Px; nia).
  assert (Hmod : 0 <= acc mod p < p) by (apply Z.mod_pos_bound; lia).
  assert (Hdiv : 0 <= acc / p < p).
  { split; [apply Z.div_pos; lia | apply Z.div_lt_upper_bound; lia]. }
  assert (Np0 : (p =? 0) = false) by (apply Z.eqb_neq; lia).
  assert (Ta : tame t (Np t ai)) by (simpl; split; [left; reflexivity | nia]).
  assert (Tb : tame t (Np t bj)) by (simpl; split; [left; reflexivity | nia]).
  assert (Tp : tame t (PyInt p)) by (simpl; nia).
  destruct (arith_tame r t Hu Mul (Np t ai) (Np t bj) (ai * bj) Ta Tb
              (or_introl I) eq_refl ltac:(nia)) as (u1 & Hu1 & E1).
  assert (T1 : tame t (Np u1 (ai * bj))) by (simpl; split; [assumption | nia]).
  destruct (arith_tame r t Hu Add x (Np u1 (ai * bj)) (payload x + ai * bj) Tx T1
              (or_intror I) eq_refl ltac:(nia)) as (u2 & Hu2 & E2).
  assert (T2 : tame t (Np u2 (payload x + ai * bj)))
    by (simpl; split; [assumption | nia]).
  assert (Eacc : payload x + ai * bj + payload carry = acc)
    by (subst acc; now rewrite <- Px).
  destruct (arith_tame r t Hu Add (Np u2 (payload x + ai * bj)) carry acc T2 Tc
              (or_introl I) Eacc ltac:(nia)) as (u3 & Hu3 & E3).
  assert (T3 : tame t (Np u3 acc)) by (simpl; split; [assumption | nia]).
  assert (Emod : ufunc Mod (payload (Np u3 acc)) (payload (PyInt p)) = acc mod p)
    by (simpl; now rewrite Np0).
  assert (Ediv : ufunc FloorDiv (payload (Np u3 acc)) (payload (PyInt p)) = acc / p)
    by (simpl; now rewrite Np0).
  destruct (arith_tame r t Hu Mod (Np u3 acc) (PyInt p) (acc mod p) T3 Tp
              (or_introl I) Emod ltac:(nia)) as (u4 & Hu4 & E4).
  destruct (arith_tame r t Hu FloorDiv (Np u3 acc) (PyInt p) (acc / p) T3 Tp
              (or_introl I) Ediv ltac:(nia)) as (u5 & Hu5 & E5).
  exists (Np u4 (acc mod p)), (Np u5 (acc / p)).
  unfold mul_inner. rewrite Ex. cbn [bind].
  rewrite (digit_well_formed a i wf_a) by lia.
  rewrite (digit_well_formed b j wf_b) by lia.
  rewrite <- same_prime. cbn [bind]. fold ai bj.
  rewrite E1. cbn [bind]. rewrite E2. cbn [bind]. rewrite E3. cbn [bind].
  rewrite E4. cbn [bind]. rewrite py_setitem_in_range by assumption. cbn [bind].
  rewrite E5. cbn [bind]. simpl. repeat split; auto; lia.
Qed.

Lemma mul_inner_loop_exact (i count j : nat) (result : list scalar) (carry : scalar) :
  (i < ka)%nat -> (j + count <= kb)%nat -> (i + j + count <= length result)%nat ->
  Forall (digit_scalar t p) result -> digit_scalar t p carry ->
  exists res' c',
    for_range (mul_inner r a b i) j count (result, carry) = Ok (res', c')
    /\ Forall (digit_scalar t p) res' /\ digit_scalar t p c'
    /\ length res' = length result
    /\ (map payload res', payload c')
       = Spec.mul_row p (nth i (digits a) 0) (digits b) i j count
                      (map payload result) (payload carry).
Proof.
  intros Hi. revert j result carry.
  induction count as [|c IH]; intros j result carry Hj Hlen Hres Hcarry.
  - exists result, carry. simpl. auto.
  - destruct (mul_inner_exact i j result carry) as (d & c1 & E & Dd & Pd & Dc & Pc);
      try assumption; try lia.
    destruct (IH (S j) (<[(i + j)%nat := d]> result) c1)
      as (res' & c' & E' & Hres' & Dc' & Hlen' & Hspec); try assumption.
    + lia.
    + rewrite length_insert. lia.
    + apply Forall_insert; assumption.
    + exists res', c'. cbn [for_range]. rewrite E. cbn [bind]. rewrite E'.
      repeat split; auto.
      * rewrite Hlen'. apply length_insert.
      * rewrite Hspec. cbn [Spec.mul_row].
        now rewrite map_payload_insert, Pd, Pc.
Qed.

Lemma mul_outer_exact (i : nat) (result : list scalar) :
  (i < ka)%nat -> (ka + kb <= length result)%nat ->
  Forall (digit_scalar t p) result ->
  exists res',
    mul_outer r a b i result = Ok res'
    /\ Forall (digit_scalar t p) res' /\ length res' = length result
    /\ map payload res'
       = let '(row, carry) :=
           Spec.mul_row p (nth i (digits a) 0) (digits b) i 0 kb
                        (map payload result) 0 in
         <[(i + kb)%nat := carry]> row.
Proof.
  intros Hi Hlen Hres.
  destruct (mul_inner_loop_exact i kb 0 result (PyInt 0))
    as (row & c & E & Hrow & Dc & Lrow & Hspec); try assumption; try lia.
  { reflexivity. }
  simpl payload in Hspec.
  exists (<[(i + kb)%nat := c]> row).
  unfold mul_outer, range_len. rewrite E. cbn [bind].
  pose proof (wf_length b wf_b) as Lb.
  replace (Z.of_nat i + precision b) with (Z.of_nat (i + kb)) by lia.
  rewrite py_setitem_in_range by lia.
  repeat split.
  - apply Forall_insert; assumption.
  - rewrite length_insert. assumption.
  - rewrite <- Hspec. apply map_payload_insert.
Qed.

Lemma mul_outer_loop_exact (count i : nat) (result : list scalar) :
  (i + count <= ka)%nat -> (ka + kb <= length result)%nat ->
  Forall (digit_scalar t p) result ->
  exists res',
    for_range (mul_outer r a b) i count result = Ok res'
    /\ Forall (digit_scalar t p) res' /\ length res' = length result
    /\ map payload res'
       = Spec.mul_rows p (digits a) (digits b) kb i count (map payload result).
Proof.
  revert i result.
  induction count as [|c IH]; intros i result Hi Hlen Hres.
  - exists result. simpl. auto.
  - destruct (mul_outer_exact i result) as (res1 & E1 & H1 & L1 & S1);
      try assumption; try lia.
    destruct (IH (S i) res1) as (res' & E' & H' & L' & S'); try assumption; try lia.
    exists res'. cbn [for_range]. rewrite E1. cbn [bind]. rewrite E'.
    repeat split; auto; [congruence|].
    rewrite S', S1. cbn [Spec.mul_rows].
    destruct (Spec.mul_row p (nth i (digits a) 0) (digits b) i 0 kb
                           (map payload result) 0) as [row carry].
    reflexivity.
Qed.

(** Both promotion regimes compute the buffer of section 4.4 when the square
    of the prime fits the storage width. *)
Lemma mul_exact :
  __mul__ r a b
  = Ok (mkPadic p (precision a + precision b) t
          (Spec.multiply p (digits a) (digits b) ka kb)).
Proof.
  pose proof (wf_length a wf_a) as La. pose proof (wf_length b wf_b) as Lb.
  unfold __mul__. rewrite <- same_prime, Z.eqb_refl. simpl negb. cbv iota.
  assert (Hn : range_len (precision a + precision b) = (ka + kb)%nat)
    by (unfold range_len; lia).
  rewrite Hn.
  destruct (mul_outer_loop_exact ka 0 (replicate (ka + kb) (PyInt 0)))
    as (res & E & Hres & Lres & Sres).
  { lia. }
  { rewrite length_replicate. lia. }
  { apply Forall_replicate. reflexivity. }
  unfold range_len at 1. rewrite E. cbn [bind]. cbn [__init__]; unfold init_list.
  rewrite length_replicate in Lres.
  assert (Hslice : py_slice_to res (precision a + precision b) = res).
  { unfold py_slice_to. destruct (Z.leb_spec 0 (precision a + precision b)); [|lia].
    fold (range_len (precision a + precision b)). rewrite Hn, <- Lres.
    apply firstn_all. }
  rewrite Hslice.
  rewrite (array_digit_scalars r t (select_dtype_unsigned p) p res)
    by (apply prime_fits || assumption).
  cbn [bind]. rewrite Sres, map_payload_replicate. reflexivity.
Qed.

Lemma mul_exact_in_range :
  length (Spec.multiply p (digits a) (digits b) ka kb) = (ka + kb)%nat
  /\ Spec.in_range p (Spec.multiply p (digits a) (digits b) ka kb).
Proof.
  pose proof (wf_length a wf_a) as La. pose proof (wf_length b wf_b) as Lb.
  destruct (mul_outer_loop_exact ka 0 (replicate (ka + kb) (PyInt 0)))
    as (res & E & Hres & Lres & Sres).
  { lia. }
  { rewrite length_replicate. lia. }
  { apply Forall_replicate. reflexivity. }
  rewrite map_payload_replicate in Sres. unfold Spec.multiply. rewrite <- Sres.
  split; [now rewrite length_map, Lres, length_replicate|].
  pose proof prime_fits as Hp.
  clear - Hres Hp prime_ge_2. induction Hres as [|x xs Hx _ IH]; simpl; constructor; auto.
  destruct (digit_scalar_tame t p x) as [_ Rx]; [lia | assumption | exact Rx].
Qed.

End MulExact.

(** ** The operators inside the safe range *)

Lemma add_from_in_range (p : Z) (a b : list Z) (count i : nat) (carry : Z) :
  0 < p -> Spec.in_range p (Spec.add_from p a b i count carry).
Proof.
  intros Hp. revert i carry.
  induction count as [|c IH]; intros i carry; simpl; constructor.
  - apply Z.mod_pos_bound, Hp.
  - apply IH.
Qed.

Lemma sub_from_in_range (p : Z) (a b : list Z) (count i : nat) (borrow : Z) :
  0 < p -> Spec.in_range p (Spec.sub_from p a b i count borrow).
Proof.
  intros Hp. revert i borrow.
  induction count as [|c IH]; intros i borrow; simpl; constructor.
  - apply Z.mod_pos_bound, Hp.
  - apply IH.
Qed.

(** Where twice the prime fits the storage width: primes up to 128, from 256
    to 32768, and from 65536 to [2^31]. *)
Lemma add_room_iff (p : Z) :
  2 <= p ->
  (2 * p <= 2 ^ bits (select_dtype p)
   <-> p <= 128 \/ 256 <= p <= 32768 \/ 65536 <= p <= 2 ^ 31).
Proof.
  intros Hp. unfold select_dtype.
  destruct (Z.ltb_spec p 256); [|destruct (Z.ltb_spec p 65536)]; simpl bits; lia.
Qed.

(** Where the square of the prime fits: up to 16, and the two bases 256 and
    65536, neither of them prime. *)
Lemma mul_room_iff (p : Z) :
  2 <= p ->
  (p * p <= 2 ^ bits (select_dtype p) <-> p <= 16 \/ p = 256 \/ p = 65536).
Proof.
  intros Hp. unfold select_dtype.
  destruct (Z.ltb_spec p 256); [|destruct (Z.ltb_spec p 65536)]; simpl bits; nia.
Qed.

(** X2: for well-formed operands of one prime such that twice the prime
    fits the storage width, in both promotion regimes, [__add__] returns the
    digits of carry-propagating addition: the precision is the larger one
    and the result represents [(a + b) mod p ^ precision]. *)
Theorem add_in_safe_range (r : promotion) (a b : PadicInteger) :
  well_formed a -> well_formed b -> prime a = prime b -> 2 <= prime a ->
  2 * prime a <= 2 ^ bits (select_dtype (prime a)) ->
  let n := Z.max (precision a) (precision b) in
  exists c, __add__ r a b = Ok c
    /\ well_formed c /\ prime c = prime a /\ precision c = n
    /\ digits c = Spec.add (prime a) (digits a) (digits b) (Z.to_nat n)
    /\ Spec.value (prime a) (digits c)
       = (Spec.value (prime a) (digits a) + Spec.value (prime a) (digits b))
         mod prime a ^ n.
Proof.
  intros Ha Hb E Hp Hroom n.
  pose proof (wf_length a Ha) as La.
  eexists. split; [apply add_exact_safe_range; assumption|]. fold n. simpl.
  repeat split; simpl.
  - unfold Spec.add. rewrite add_from_length. subst n. lia.
  - apply add_from_in_range. lia.
  - rewrite value_add by lia. rewrite Z2Nat.id by (subst n; lia). reflexivity.
Qed.

(** X3: under NEP 50, for well-formed operands of one prime such that twice
    the prime fits the storage width, [__sub__] returns the digits of
    borrow-propagating subtraction: the precision is the larger one and the
    result represents [(a - b) mod p ^ precision]. *)
Theorem sub_in_safe_range (a b : PadicInteger) :
  well_formed a -> well_formed b -> prime a = prime b -> 2 <= prime a ->
  2 * prime a <= 2 ^ bits (select_dtype (prime a)) ->
  let n := Z.max (precision a) (precision b) in
  exists c, __sub__ NEP50 a b = Ok c
    /\ well_formed c /\ prime c = prime a /\ precision c = n
    /\ digits c = Spec.subtract (prime a) (digits a) (digits b) (Z.to_nat n)
    /\ Spec.value (prime a) (digits c)
       = (Spec.value (prime a) (digits a) - Spec.value (prime a) (digits b))
         mod prime a ^ n.
Proof.
  intros Ha Hb E Hp Hroom n.
  pose proof (wf_length a Ha) as La.
  eexists. split; [apply sub_exact_safe_range; assumption|]. fold n. simpl.
  repeat split; simpl.
  - unfold Spec.subtract. rewrite sub_from_length. subst n. lia.
  - apply sub_from_in_range. lia.
  - rewrite value_sub; try lia.
    + rewrite Z2Nat.id by (subst n; lia). reflexivity.
    + apply (wf_range a Ha).
    + rewrite E. apply (wf_range b Hb).
Qed.

(** X4: for well-formed operands of one prime whose square fits the storage
    width, in both promotion regimes, [__mul__] returns the schoolbook
    product: precision [a.precision + b.precision], and the digits represent
    the exact product of the two values. *)
Theorem mul_in_safe_range (r : promotion) (a b : PadicInteger) :
  well_formed a -> well_formed b -> prime a = prime b -> 2 <= prime a ->
  prime a * prime a <= 2 ^ bits (select_dtype (prime a)) ->
  exists c, __mul__ r a b = Ok c
    /\ prime c = prime a /\ precision c = precision a + precision b
    /\ digits c = Spec.multiply (prime a) (digits a) (digits b)
                           (Z.to_nat (precision a)) (Z.to_nat (precision b))
    /\ Spec.value (prime a) (digits c)
       = Spec.value (prime a) (digits a) * Spec.value (prime a) (digits b).
Proof.
  intros Ha Hb E Hp Hroom.
  pose proof (wf_length a Ha) as La. pose proof (wf_length b Hb) as Lb.
  eexists. split; [apply mul_exact; assumption|]. simpl.
  repeat split. apply value_mul; lia.
Qed.

(** ** Associativity inside the safe range *)

Lemma value_bound (p : Z) (ds : list Z) :
  0 < p -> Spec.in_range p ds ->
  0 <= Spec.value p ds < p ^ Z.of_nat (length ds).
Proof.
  intros Hp. induction 1 as [|d ds Hd _ IH].
  - simpl. lia.
  - cbn [Spec.value length]. rewrite Nat2Z.inj_succ, Z.pow_succ_r by lia. nia.
Qed.

(** In-range digit sequences of one length are determined by their value. *)
Lemma value_inj (p : Z) (ds ds' : list Z) :
  0 < p -> Spec.in_range p ds -> Spec.in_range p ds' ->
  length ds = length ds' -> Spec.value p ds = Spec.value p ds' -> ds = ds'.
Proof.
  intros Hp Hds. revert ds'.
  induction Hds as [|d ds Hd _ IH]; intros [|d' ds'] Hds' Hlen Hval;
    try discriminate; [reflexivity|].
  inversion Hds' as [|? ? Hd' Hds'']; subst.
  cbn [Spec.value] in Hval.
  assert (d = d').
  { assert (E : (d + p * Spec.value p ds) mod p = (d' + p * Spec.value p ds') mod p)
      by now rewrite Hval.
    rewrite !(Z.mul_comm p), !Z.mod_add, !Z.mod_small in E by lia. exact E. }
  subst d'. f_equal. apply IH; auto. nia.
Qed.

Lemma add_result_well_formed (p n : Z) (da db : list Z) :
  0 < p -> 0 <= n ->
  well_formed (mkPadic p n (select_dtype p) (Spec.add p da db (Z.to_nat n))).
Proof.
  intros Hp Hn. split; simpl.
  - unfold Spec.add. rewrite add_from_length. lia.
  - apply add_from_in_range. assumption.
  - reflexivity.
Qed.

(** X5: addition is associative for well-formed operands of one prime and
    one precision, where twice the prime fits the storage width, in both
    promotion regimes. *)
Theorem add_assoc_in_safe_range (r : promotion) (a b c : PadicInteger) :
  well_formed a -> well_formed b -> well_formed c ->
  prime a = prime b -> prime b = prime c ->
  precision a = precision b -> precision b = precision c ->
  2 <= prime a -> 2 * prime a <= 2 ^ bits (select_dtype (prime a)) ->
  lift2 (__add__ r) (__add__ r a b) (Ok c) = lift2 (__add__ r) (Ok a) (__add__ r b c).
Proof.
  intros Ha Hb Hc Eab Ebc Kab Kbc Hp Hroom.
  pose proof (wf_length a Ha) as La.
  assert (Kb : precision b = precision a) by lia.
  assert (Kc : precision c = precision a) by lia.
  assert (Pb : prime b = prime a) by lia.
  assert (Pc : prime c = prime a) by lia.
  rewrite (add_exact_safe_range r a b Ha Hb Eab Hp Hroom).
  rewrite (add_exact_safe_range r b c Hb Hc Ebc) by (rewrite Pb; assumption).
  rewrite Pb, Kb, Kc, Z.max_id. unfold lift2. cbn [bind].
  set (k := precision a) in *. set (p := prime a) in *.
  set (ab := mkPadic p k _ (Spec.add p (digits a) (digits b) _)).
  set (bc := mkPadic p k _ (Spec.add p (digits b) (digits c) _)).
  assert (Wab : well_formed ab) by (apply add_result_well_formed; lia).
  assert (Wbc : well_formed bc) by (apply add_result_well_formed; lia).
  rewrite (add_exact_safe_range r ab c Wab Hc) by (simpl; (assumption || lia)).
  rewrite (add_exact_safe_range r a bc Ha Wbc) by (simpl; (assumption || lia)).
  simpl prime. simpl precision. simpl digits. fold p k. rewrite Kc. fold k.
  rewrite Z.max_id. f_equal. f_equal.
  apply (value_inj p); try lia.
  - apply add_from_in_range. lia.
  - apply add_from_in_range. lia.
  - unfold Spec.add. now rewrite !add_from_length.
  - rewrite !value_add by lia.
    rewrite Zplus_mod_idemp_l, Zplus_mod_idemp_r. f_equal. ring.
Qed.

(** ** Outside the safe range *)

Lemma prime_below_width (p : Z) : p < 2 ^ 32 -> p < 2 ^ bits (select_dtype p).
Proof.
  intros Hp. unfold select_dtype.
  destruct (Z.ltb_spec p 256); [|destruct (Z.ltb_spec p 65536)]; simpl bits; lia.
Qed.

Lemma pow_bits_even (t : NumPy.dtype) : exists h, 2 ^ bits t = 2 * h.
Proof.
  destruct t; simpl bits;
    [exists (2 ^ 7) | exists (2 ^ 15) | exists (2 ^ 31) | exists (2 ^ 63)]; lia.
Qed.

Lemma promote_types_same (t : NumPy.dtype) : promote_types t t = t.
Proof. destruct t; reflexivity. Qed.

(** X6: for every prime below [2^32] such that twice the prime exceeds the
    storage width, the one-digit value [p - 1] added to itself wraps: the
    digit is [2p - 2 - 2^bits] instead of [p - 2], in both promotion
    regimes.  The bound on the prime under which addition is exact is
    therefore sharp. *)
Theorem add_wraps_outside_safe_range (r : promotion) (p : Z) :
  2 <= p < 2 ^ 32 ->
  2 ^ bits (select_dtype p) < 2 * p ->
  let t := select_dtype p in
  let a := mkPadic p 1 t [p - 1] in
  well_formed a
  /\ __add__ r a a = Ok (mkPadic p 1 t [2 * p - 2 - 2 ^ bits t])
  /\ Spec.add p [p - 1] [p - 1] 1 = [p - 2]
  /\ 2 * p - 2 - 2 ^ bits t <> p - 2.
Proof.
  intros Hp Hwide t a.
  pose proof (prime_below_width p ltac:(lia)) as Hlt. fold t in Hlt, Hwide.
  pose proof (select_dtype_unsigned p) as Hu. fold t in Hu.
  set (w := 2 * p - 2 - 2 ^ bits t).
  destruct (pow_bits_even t) as (h & Hh).
  assert (Hw : 0 <= w < p) by (subst w; lia).
  split; [|split; [|split]].
  - split; simpl; [reflexivity | repeat constructor; lia | reflexivity].
  - unfold __add__. simpl prime. rewrite Z.eqb_refl. simpl negb. cbv iota.
    simpl precision. change (range_len (Z.max 1 1)) with 1%nat.
    cbn [for_range]. unfold add_body. change (prime a) with p.
    change (digit_or_zero a 0) with (Ok (Np t (p - 1))). cbn [bind].
    unfold arith at 1. rewrite promote_types_same, wrap_unsigned by assumption.
    cbn [ufunc bind].
    assert ((p - 1 + (p - 1)) mod 2 ^ bits t = w) as ->.
    { symmetry. apply (Z.mod_unique _ _ 1). { lia. } subst w. ring. }
    assert (Tw : tame t (Np t w)) by (simpl; split; [left; reflexivity | lia]).
    assert (Tp : tame t (PyInt p)) by (simpl; lia).
    assert (T0 : tame t (PyInt 0)) by (simpl; lia).
    assert (Np0 : (p =? 0) = false) by (apply Z.eqb_neq; lia).
    destruct (arith_tame r t Hu Add (Np t w) (PyInt 0) w Tw T0 (or_introl I))
      as (u1 & Hu1 & ->); [simpl; lia | lia |]. cbn [bind].
    assert (T1 : tame t (Np u1 w)) by (simpl; split; [assumption | lia]).
    destruct (arith_tame r t Hu Mod (Np u1 w) (PyInt p) w T1 Tp (or_introl I))
      as (u2 & Hu2 & ->);
      [simpl; rewrite Np0; apply Z.mod_small; lia | lia |].
    destruct (arith_tame r t Hu FloorDiv (Np u1 w) (PyInt p) 0 T1 Tp (or_introl I))
      as (u3 & Hu3 & ->);
      [simpl; rewrite Np0; apply Z.div_small; lia | lia |].
    cbn [bind app]. cbn [__init__]; unfold init_list. simpl prime.
    change (Z.max 1 1) with 1.
    change (py_slice_to [Np u2 w] 1) with [Np u2 w].
    cbn [array store bind]. fold t.
    rewrite (wrap_in_range t Hu t w); [reflexivity | left; reflexivity | lia].
  - unfold Spec.add. simpl. f_equal.
    rewrite Z.add_0_r. symmetry. apply (Z.mod_unique _ _ 1); lia.
  - subst w. lia.
Qed.

Lemma add_wraps_outside_safe_range_witness :
  __add__ NEP50 (mkPadic 131 1 uint8 [130]) (mkPadic 131 1 uint8 [130])
  = Ok (mkPadic 131 1 uint8 [4]).
Proof.
  refine (proj1 (proj2 (add_wraps_outside_safe_range NEP50 131 _ _))).
  - lia.
  - vm_compute. reflexivity.
Defined.

(** ** Failing inputs: arithmetic in the storage width *)

(** C1: with the prime 251 the digits are [uint8]; [250 + 250] is computed
    in [uint8] and wraps to 244 before [% 251] and [// 251] see it.  The
    result digit is 244 where [(250 + 250 + 0) mod 251 = 249], and the carry
    is lost. *)
Theorem add_wraps_at_prime_251 (r : promotion) :
  let a := mkPadic 251 1 uint8 [250] in
  Znumtheory.prime 251
  /\ __init__ r (ListValue [PyInt 250]) 251 1 = Ok a
  /\ well_formed a
  /\ __add__ r a a = Ok (mkPadic 251 1 uint8 [244])
  /\ Spec.add 251 [250] [250] 1 = [249]
  /\ (Spec.value 251 [250] + Spec.value 251 [250]) mod 251 ^ 1 = 249.
Proof.
  split; [exact prime_251|].
  destruct r; (split; [reflexivity|]);
    (split; [split; [reflexivity | repeat constructor; lia | reflexivity]|]);
    vm_compute; repeat split; reflexivity.
Qed.

(** C2: [[0, 250] - [1, 0]] with the prime 251, that is [62750 - 1 = 62749
    = 250 + 249 * 251].  Under NEP 50 the second digit [250 - 0 - 1 + 251 =
    500] wraps in [uint8] to 244; under the legacy promotion the first
    digit [0 - 1] wraps in [uint8] to 255 before the prime is added in
    [int64], which gives digit 4 and no borrow. *)
Theorem sub_wraps_at_prime_251 :
  let a := mkPadic 251 2 uint8 [0; 250] in
  let b := mkPadic 251 2 uint8 [1; 0] in
  Znumtheory.prime 251
  /\ well_formed a /\ well_formed b
  /\ __sub__ NEP50 a b = Ok (mkPadic 251 2 uint8 [250; 244])
  /\ __sub__ Legacy a b = Ok (mkPadic 251 2 uint8 [4; 250])
  /\ Spec.subtract 251 [0; 250] [1; 0] 2 = [250; 249]
  /\ (Spec.value 251 [0; 250] - Spec.value 251 [1; 0]) mod 251 ^ 2
     = Spec.value 251 [250; 249].
Proof.
  split; [exact prime_251|].
  split; [|split];
    try (split; [reflexivity | repeat constructor; lia | reflexivity]).
  vm_compute; repeat split; reflexivity.
Qed.

(** C3: [[16] * [16]] with the prime 17: [16 * 16 = 256] is computed in
    [uint8] and wraps to 0, so the product of 16 and 16 comes out as 0
    instead of [256 = 1 + 15 * 17]. *)
Theorem mul_wraps_at_prime_17 (r : promotion) :
  let a := mkPadic 17 1 uint8 [16] in
  Znumtheory.prime 17
  /\ __init__ r (ListValue [PyInt 16]) 17 1 = Ok a
  /\ well_formed a
  /\ __mul__ r a a = Ok (mkPadic 17 2 uint8 [0; 0])
  /\ Spec.multiply 17 [16] [16] 1 1 = [1; 15]
  /\ Spec.value 17 [1; 15] = Spec.value 17 [16] * Spec.value 17 [16].
Proof.
  split; [exact prime_17|].
  destruct r; (split; [reflexivity|]);
    (split; [split; [reflexivity | repeat constructor; lia | reflexivity]|]);
    vm_compute; repeat split; reflexivity.
Qed.

(** C8: every storage width changes results.  For the primes 131 ([uint8]),
    32771 ([uint16]) and 2147483659 ([uint32]) the sum of the one-digit
    value [p - 1] with itself differs from the sum computed on unbounded
    integers, and so does the product at the prime 17. *)
Theorem storage_width_changes_results (r : promotion) :
  let top p := mkPadic p 1 (select_dtype p) [p - 1] in
  (Znumtheory.prime 131 /\ Znumtheory.prime 32771
   /\ Znumtheory.prime 2147483659 /\ Znumtheory.prime 17)
  /\ (digits_of (__add__ r (top 131) (top 131)) = Some [4]
   /\ Spec.add 131 [130] [130] 1 = [129])
  /\ (digits_of (__add__ r (top 32771) (top 32771)) = Some [4]
      /\ Spec.add 32771 [32770] [32770] 1 = [32769])
  /\ (digits_of (__add__ r (top 2147483659) (top 2147483659)) = Some [20]
      /\ Spec.add 2147483659 [2147483658] [2147483658] 1 = [2147483657])
  /\ (digits_of (__mul__ r (top 17) (top 17)) = Some [0; 0]
      /\ Spec.multiply 17 [16] [16] 1 1 = [1; 15]).
Proof.
  split.
  - repeat apply conj;
      [exact prime_131 | exact prime_32771 | exact prime_2147483659 | exact prime_17].
  - destruct r; vm_compute; repeat split; reflexivity.
Qed.

(** C9: with the prime 251, [([250] + [250]) + [1]] has digit 245 and
    [[250] + ([250] + [1])] has digit 250: the first sum wraps in [uint8],
    the second does not.  Addition is not associative. *)
Theorem add_not_associative_at_prime_251 (r : promotion) :
  let a := mkPadic 251 1 uint8 [250] in
  let c := mkPadic 251 1 uint8 [1] in
  Znumtheory.prime 251
  /\ well_formed a /\ well_formed c
  /\ lift2 (__add__ r) (__add__ r a a) (Ok c) = Ok (mkPadic 251 1 uint8 [245])
  /\ lift2 (__add__ r) (Ok a) (__add__ r a c) = Ok (mkPadic 251 1 uint8 [250]).
Proof.
  split; [exact prime_251|].
  split; [|split];
    try (split; [reflexivity | repeat constructor; lia | reflexivity]).
  destruct r; vm_compute; split; reflexivity.
Qed.

(** ** The scenario of section 8 (prime 5, precision 10) *)

Example demo_construct (r : promotion) :
  digits_of (demo r 123) = Some [3; 4; 4; 0; 0; 0; 0; 0; 0; 0]
  /\ digits_of (demo r 456) = Some [1; 1; 3; 3; 0; 0; 0; 0; 0; 0].
Proof. destruct r; vm_compute; split; reflexivity. Qed.

Example demo_add (r : promotion) :
  digits_of (lift2 (__add__ r) (demo r 123) (demo r 456))
  = Some [4; 0; 3; 4; 0; 0; 0; 0; 0; 0].
Proof. destruct r; vm_compute; reflexivity. Qed.

Example demo_sub_nep50 :
  digits_of (lift2 (__sub__ NEP50) (demo NEP50 456) (demo NEP50 123))
  = Some [3; 1; 3; 2; 0; 0; 0; 0; 0; 0].
Proof. vm_compute; reflexivity. Qed.

(** Under the legacy promotion [uint8(1) - uint8(3)] wraps to 254 and is
    then widened to [int64] before the prime is added: the scenario's
    difference [456 - 123] comes out wrong in its first three digits. *)
Example demo_sub_legacy :
  digits_of (lift2 (__sub__ Legacy) (demo Legacy 456) (demo Legacy 123))
  = Some [4; 3; 0; 3; 0; 0; 0; 0; 0; 0].
Proof. vm_compute; reflexivity. Qed.

Example demo_mul (r : promotion) :
  lift2 (__mul__ r) (demo r 123) (demo r 456)
  = Ok (mkPadic 5 20 uint8
          [3; 2; 3; 3; 4; 2; 3; 0; 0; 0; 0; 0; 0; 0; 0; 0; 0; 0; 0; 0]).
Proof. destruct r; vm_compute; reflexivity. Qed.

Lemma demo_a_well_formed : well_formed demo_a.
Proof. split; [reflexivity | repeat constructor; lia | reflexivity]. Qed.

Lemma demo_b_well_formed : well_formed demo_b.
Proof. split; [reflexivity | repeat constructor; lia | reflexivity]. Qed.

Lemma demo_add_room : 2 * prime demo_a <= 2 ^ bits (select_dtype (prime demo_a)).
Proof. vm_compute. discriminate. Qed.

Lemma demo_mul_room :
  prime demo_a * prime demo_a <= 2 ^ bits (select_dtype (prime demo_a)).
Proof. vm_compute. discriminate. Qed.

Lemma add_in_safe_range_witness :
  exists c, __add__ Legacy demo_a demo_b = Ok c /\ Spec.value 5 (digits c) = 579.
Proof.
  destruct (add_in_safe_range Legacy demo_a demo_b demo_a_well_formed
              demo_b_well_formed eq_refl ltac:(simpl; lia) demo_add_room)
    as (c & E & _ & _ & _ & _ & V).
  exists c. split; [exact E|]. etransitivity; [exact V | reflexivity].
Defined.

Lemma sub_in_safe_range_witness :
  exists c, __sub__ NEP50 demo_b demo_a = Ok c /\ Spec.value 5 (digits c) = 333.
Proof.
  destruct (sub_in_safe_range demo_b demo_a demo_b_well_formed
              demo_a_well_formed eq_refl ltac:(simpl; lia) demo_add_room)
    as (c & E & _ & _ & _ & _ & V).
  exists c. split; [exact E|]. etransitivity; [exact V | reflexivity].
Defined.

Lemma mul_in_safe_range_witness :
  exists c, __mul__ Legacy demo_a demo_b = Ok c /\ Spec.value 5 (digits c) = 56088.
Proof.
  destruct (mul_in_safe_range Legacy demo_a demo_b demo_a_well_formed
              demo_b_well_formed eq_refl ltac:(simpl; lia) demo_mul_room)
    as (c & E & _ & _ & _ & V).
  exists c. split; [exact E|]. etransitivity; [exact V | reflexivity].
Defined.

Lemma add_assoc_in_safe_range_witness :
  lift2 (__add__ NEP50) (__add__ NEP50 demo_a demo_b) (Ok demo_a)
  = lift2 (__add__ NEP50) (Ok demo_a) (__add__ NEP50 demo_b demo_a).
Proof.
  apply add_assoc_in_safe_range;
    solve [ apply demo_a_well_formed | apply demo_b_well_formed | reflexivity
          | simpl; lia | apply demo_add_room ].
Defined.

(** ** Laws that hold for every prime below [2^32] *)

Lemma well_formed_eta (a : PadicInteger) :
  well_formed a ->
  a = mkPadic (prime a) (precision a) (select_dtype (prime a)) (digits a).
Proof. intros [_ _ E]. destruct a; simpl in *. now subst. Qed.

Lemma expansion_zero (p : Z) (len : nat) :
  0 < p -> Spec.expansion p len 0 = replicate len 0.
Proof.
  intros Hp. induction len as [|len IH]; [reflexivity|].
  rewrite expansion_succ by assumption.
  rewrite Z.mod_0_l, Z.div_0_l by lia. simpl. now rewrite IH.
Qed.

Lemma nth_replicate_zero (len i : nat) : nth i (replicate len 0) 0 = 0.
Proof.
  rewrite nth_lookup. destruct (replicate len 0 !! i) as [z|] eqn:E; [|reflexivity].
  apply lookup_replicate in E as [-> _]. reflexivity.
Qed.

Lemma zero_well_formed (p k : Z) :
  0 < p -> 0 <= k ->
  well_formed (mkPadic p k (select_dtype p) (Spec.expansion p (range_len k) 0)).
Proof.
  intros Hp Hk. split; simpl.
  - rewrite expansion_length by assumption. unfold range_len. lia.
  - apply expansion_in_range. assumption.
  - reflexivity.
Qed.

(** X7: the zero of the constructor is a right identity of addition for
    every prime below [2^32], also where sums of two digits would wrap:
    [a + PadicInteger(0, a.prime, a.precision)] is [a]. *)
Theorem add_zero_right (r : promotion) (a : PadicInteger) :
  well_formed a -> 2 <= prime a < 2 ^ 32 ->
  lift2 (__add__ r) (Ok a) (__init__ r (IntValue 0) (prime a) (precision a)) = Ok a.
Proof.
  intros Ha Hp. pose proof (wf_length a Ha) as La.
  rewrite init_int_expansion by lia. unfold lift2. cbn [bind].
  set (z := mkPadic _ _ _ _).
  assert (Hz : well_formed z) by (apply zero_well_formed; lia).
  pose proof (prime_below_width (prime a) ltac:(lia)) as Hfit.
  rewrite (add_exact r a z Ha Hz eq_refl ltac:(lia) Hfit).
  - simpl. rewrite Z.max_id. apply f_equal.
    etransitivity; [|symmetry; exact (well_formed_eta a Ha)].
    f_equal. apply (value_inj (prime a)); try lia.
    + apply add_from_in_range. lia.
    + apply (wf_range a Ha).
    + unfold Spec.add. rewrite add_from_length. lia.
    + rewrite value_add by lia.
      rewrite expansion_zero, value_replicate_zero, Z.add_0_r by lia.
      pose proof (value_bound (prime a) (digits a) ltac:(lia) (wf_range a Ha)) as Hv.
      rewrite La in Hv. rewrite Z2Nat.id by lia. apply Z.mod_small. exact Hv.
  - intros i. simpl. rewrite expansion_zero, nth_replicate_zero by lia.
    pose proof (nth_in_range (prime a) (digits a) i ltac:(lia) (wf_range a Ha)).
    lia.
Qed.

Lemma add_zero_right_witness :
  lift2 (__add__ NEP50) (Ok (mkPadic 251 1 uint8 [250]))
        (__init__ NEP50 (IntValue 0) 251 1)
  = Ok (mkPadic 251 1 uint8 [250]).
Proof.
  apply (add_zero_right NEP50 (mkPadic 251 1 uint8 [250])).
  - split; [reflexivity | repeat constructor; lia | reflexivity].
  - simpl. lia.
Defined.

(** ** Subtraction under the legacy promotion *)

Lemma promote_int64 (t : NumPy.dtype) : promote_types t int64 = int64.
Proof. destruct t; reflexivity. Qed.

Lemma wrap_int64_small (v : Z) : - 2 ^ 63 <= v < 2 ^ 63 -> wrap int64 v = v.
Proof. intros Hv. unfold wrap. simpl lo; simpl bits. rewrite Z.mod_small; lia. Qed.

(** A NumPy scalar combined with a Python integer is an [int64]. *)
Lemma arith_legacy_weak (t : NumPy.dtype) (op : binop) (w z : Z) :
  - 2 ^ 63 <= z < 2 ^ 63 -> - 2 ^ 63 <= ufunc op w z < 2 ^ 63 ->
  arith Legacy op (Np t w) (PyInt z) = Ok (Np int64 (ufunc op w z)).
Proof.
  intros Hz Hv. simpl.
  assert (fits int64 z = true) as ->.
  { unfold fits. simpl lo; simpl hi. apply andb_true_iff.
    split; [apply Z.leb_le | apply Z.ltb_lt]; lia. }
  simpl. now rewrite promote_int64, wrap_int64_small.
Qed.

Section SubLegacy.

Variables a b : PadicInteger.
Hypothesis wf_a : well_formed a.
Hypothesis wf_b : well_formed b.
Hypothesis same_prime : prime a = prime b.
Hypothesis same_precision : precision a = precision b.
Hypothesis prime_range : 2 <= prime a <= 2 ^ 32.

#[local] Abbreviation p := (prime a).
#[local] Abbreviation t := (select_dtype (prime a)).

Lemma legacy_sub_digit_range (x y : Z) : 0 <= legacy_sub_digit t p x y < p.
Proof. unfold legacy_sub_digit. apply Z.mod_pos_bound. lia. Qed.

(** Both digits are scalars of the storage dtype: their difference wraps,
    and since the wrapped difference is never negative the test
    [digit_diff < prime] never holds.  No borrow is ever passed on. *)
Lemma sub_body_legacy (i : nat) (result : list scalar) :
  Z.of_nat i < precision a ->
  sub_body Legacy a b i (result, 0)
  = Ok (result ++ [Np int64 (legacy_sub_digit t p (nth i (digits a) 0)
                                              (nth i (digits b) 0))], 0).
Proof.
  intros Hi. pose proof (select_dtype_unsigned p) as Hu.
  pose proof (bits_unsigned t Hu) as Hb. pose proof (pow_bits_pos t) as HM.
  unfold sub_body.
  rewrite (digit_or_zero_exact a i wf_a), (digit_or_zero_exact b i wf_b).
  rewrite <- same_prime, <- same_precision.
  destruct (Z.ltb_spec (Z.of_nat i) (precision a)) as [_|]; [|lia].
  cbn [bind]. set (x := nth i (digits a) 0). set (y := nth i (digits b) 0).
  assert (arith Legacy Sub (Np t x) (Np t y) = Ok (Np t ((x - y) mod 2 ^ bits t))) as ->.
  { simpl. now rewrite promote_types_same, wrap_unsigned. }
  cbn [bind].
  set (w := (x - y) mod 2 ^ bits t).
  assert (Hw : 0 <= w < 2 ^ bits t) by (apply Z.mod_pos_bound; lia).
  rewrite (arith_legacy_weak t Sub w 0) by (simpl; lia). cbn [bind ufunc].
  rewrite (arith_legacy_weak int64 Add (w - 0) p) by (simpl; lia). cbn [bind ufunc].
  rewrite (arith_legacy_weak int64 Mod (w - 0 + p) p).
  - cbn [bind ufunc]. assert ((p =? 0) = false) as -> by (apply Z.eqb_neq; lia).
    unfold lt_py. cbn [payload].
    assert ((w - 0 + p <? p) = false) as -> by (apply Z.ltb_ge; lia).
    replace (w - 0 + p) with (w + 1 * p) by ring.
    rewrite Z.mod_add by lia. reflexivity.
  - lia.
  - simpl. assert ((p =? 0) = false) as -> by (apply Z.eqb_neq; lia).
    pose proof (Z.mod_pos_bound (w - 0 + p) p ltac:(lia)). lia.
Qed.

Lemma sub_loop_legacy (count i : nat) (result : list scalar) :
  Z.of_nat (i + count) <= precision a ->
  for_range (sub_body Legacy a b) i count (result, 0)
  = Ok (result
        ++ map (fun j => Np int64 (legacy_sub_digit t p (nth j (digits a) 0)
                                                    (nth j (digits b) 0)))
               (seq i count), 0).
Proof.
  revert i result. induction count as [|count IH]; intros i result Hi.
  - simpl. now rewrite app_nil_r.
  - cbn [for_range]. rewrite sub_body_legacy by lia. cbn [bind].
    rewrite IH by lia. rewrite <- app_assoc. reflexivity.
Qed.

Lemma sub_legacy :
  __sub__ Legacy a b
  = Ok (mkPadic p (precision a) t
          (map (fun j => legacy_sub_digit t p (nth j (digits a) 0) (nth j (digits b) 0))
               (seq 0 (Z.to_nat (precision a))))).
Proof.
  pose proof (wf_length a wf_a) as La.
  unfold __sub__. rewrite <- same_prime, Z.eqb_refl. simpl negb. cbv iota.
  rewrite <- same_precision, Z.max_id.
  rewrite sub_loop_legacy by (unfold range_len; lia).
  cbn [bind app]. cbn [__init__]. unfold init_list.
  set (ds := map _ _).
  assert (Hlen : length ds = range_len (precision a))
    by (subst ds; now rewrite length_map, length_seq).
  assert (Hslice : py_slice_to ds (precision a) = ds).
  { unfold py_slice_to. destruct (Z.leb_spec 0 (precision a)); [|lia].
    fold (range_len (precision a)). rewrite <- Hlen. apply firstn_all. }
  rewrite Hslice.
  rewrite (array_digit_scalars Legacy t (select_dtype_unsigned p) p ds).
  - cbn [bind]. subst ds. rewrite map_map. reflexivity.
  - unfold select_dtype.
    destruct (Z.ltb_spec p 256); [|destruct (Z.ltb_spec p 65536)]; simpl bits; lia.
  - subst ds. apply List.Forall_forall. intros s Hs.
    apply in_map_iff in Hs as (j & <- & _). simpl. split; [right; reflexivity|].
    apply legacy_sub_digit_range.
Qed.

End SubLegacy.

Lemma nth_map_seq (f : nat -> Z) (len j : nat) :
  (j < len)%nat -> nth j (map f (seq 0 len)) 0 = f j.
Proof.
  intros Hj. rewrite (nth_indep _ 0 (f 0%nat)) by (now rewrite length_map, length_seq).
  rewrite map_nth, seq_nth by assumption. reflexivity.
Qed.

(** X8: NumPy 1 subtracts digit by digit and never borrows.  For operands
    of one precision, digit [j] of [a - b] is
    [((a_j - b_j) mod 2^width) mod prime]: it is [a_j - b_j] where
    [a_j >= b_j], and where [a_j < b_j] the wrapped difference is reduced
    and the next digit is not decremented. *)
Theorem sub_legacy_digitwise (a b : PadicInteger) :
  well_formed a -> well_formed b -> prime a = prime b ->
  precision a = precision b -> 2 <= prime a <= 2 ^ 32 ->
  exists c, __sub__ Legacy a b = Ok c
    /\ prime c = prime a /\ precision c = precision a
    /\ length (digits c) = Z.to_nat (precision a)
    /\ forall j, (j < Z.to_nat (precision a))%nat ->
         nth j (digits c) 0
         = ((nth j (digits a) 0 - nth j (digits b) 0)
            mod 2 ^ bits (select_dtype (prime a))) mod prime a
         /\ (nth j (digits b) 0 <= nth j (digits a) 0 ->
             nth j (digits c) 0 = nth j (digits a) 0 - nth j (digits b) 0).
Proof.
  intros Ha Hb E K Hp.
  eexists. split; [apply sub_legacy; assumption|]. simpl.
  repeat split.
  - now rewrite length_map, length_seq.
  - rewrite nth_map_seq by assumption. reflexivity.
  - intros Hle. rewrite nth_map_seq by assumption. unfold legacy_sub_digit.
    pose proof (nth_in_range (prime a) (digits a) j ltac:(lia) (wf_range a Ha)).
    pose proof (nth_in_range (prime b) (digits b) j ltac:(lia) (wf_range b Hb)).
    pose proof (prime_below_width (prime a)) as Hw.
    assert (Hfit : prime a <= 2 ^ bits (select_dtype (prime a))).
    { unfold select_dtype.
      destruct (Z.ltb_spec (prime a) 256); [|destruct (Z.ltb_spec (prime a) 65536)];
        simpl bits; lia. }
    rewrite (Z.mod_small (nth j (digits a) 0 - nth j (digits b) 0)) by lia.
    apply Z.mod_small. lia.
Qed.

Lemma sub_legacy_digitwise_witness :
  exists c, __sub__ Legacy demo_b demo_a = Ok c
            /\ nth 0 (digits c) 0 = ((1 - 3) mod 2 ^ 8) mod 5.
Proof.
  destruct (sub_legacy_digitwise demo_b demo_a demo_b_well_formed
              demo_a_well_formed eq_refl eq_refl ltac:(simpl; lia))
    as (c & E & _ & _ & _ & D).
  exists c. split; [exact E|]. apply (D 0%nat). simpl. lia.
Defined.

Lemma map_const_zero (start len : nat) :
  map (fun _ : nat => 0) (seq start len) = replicate len 0.
Proof.
  revert start. induction len as [|len IH]; intros start; simpl; [reflexivity|].
  now rewrite IH.
Qed.

(** X9: [a - a] is the zero of the constructor for every prime below
    [2^32], in both promotion regimes, also outside the range where
    subtraction is exact in general. *)
Theorem sub_self (r : promotion) (a : PadicInteger) :
  well_formed a -> 2 <= prime a < 2 ^ 32 ->
  __sub__ r a a = __init__ r (IntValue 0) (prime a) (precision a).
Proof.
  intros Ha Hp. pose proof (wf_length a Ha) as La.
  rewrite init_int_expansion, expansion_zero by lia.
  destruct r.
  - rewrite (sub_legacy a a Ha Ha eq_refl eq_refl ltac:(lia)).
    f_equal. f_equal. unfold range_len.
    rewrite <- (map_const_zero 0). apply map_ext. intros j.
    unfold legacy_sub_digit. now rewrite Z.sub_diag, !Z.mod_0_l by
      (pose proof (pow_bits_pos (select_dtype (prime a))); lia).
  - pose proof (prime_below_width (prime a) ltac:(lia)) as Hfit.
    rewrite (sub_exact a a Ha Ha eq_refl ltac:(lia) Hfit) by (intros i; lia).
    rewrite Z.max_id. f_equal. f_equal. unfold range_len.
    apply (value_inj (prime a)); try lia.
    + apply sub_from_in_range. lia.
    + rewrite <- expansion_zero with (p := prime a) by lia.
      apply expansion_in_range. lia.
    + unfold Spec.subtract. now rewrite sub_from_length, length_replicate.
    + rewrite value_sub by (try apply (wf_range a Ha); lia).
      rewrite Z.sub_diag, value_replicate_zero. apply Z.mod_0_l.
      apply Z.pow_nonzero; lia.
Qed.

Lemma sub_self_witness :
  __sub__ Legacy (mkPadic 251 1 uint8 [250]) (mkPadic 251 1 uint8 [250])
  = __init__ Legacy (IntValue 0) 251 1.
Proof.
  apply (sub_self Legacy (mkPadic 251 1 uint8 [250])).
  - split; [reflexivity | repeat constructor; lia | reflexivity].
  - simpl. lia.
Defined.

(** ** What every returned result looks like *)

Lemma bind_inv {A B : Type} (c : outcome A) (k : A -> outcome B) (y : B) :
  bind c k = Ok y -> exists x, c = Ok x /\ k x = Ok y.
Proof. destruct c as [x|e]; simpl; [eauto | discriminate]. Qed.

Ltac bind_inv H :=
  let x := fresh "x" in
  let Hx := fresh "Hx" in
  apply bind_inv in H as (x & Hx & H).

Lemma wrap_id (t : NumPy.dtype) (v : Z) : lo t <= v < hi t -> wrap t v = v.
Proof.
  intros Hv. unfold wrap. rewrite Z.mod_small; [lia|].
  destruct t; simpl in *; lia.
Qed.

Lemma weak_dtype_fits (r : promotion) (t tu : NumPy.dtype) (z : Z) :
  weak_dtype r t z = Ok tu -> fits tu z = true.
Proof.
  destruct r; simpl.
  - destruct (fits int64 z) eqn:E; [|discriminate].
    intros [= <-]. now rewrite promote_int64.
  - destruct (fits t z) eqn:E; [|discriminate]. now intros [= <-].
Qed.

(** Whatever was reduced modulo the prime is a digit. *)
Lemma arith_mod_range (r : promotion) (x d : scalar) (p : Z) :
  0 < p -> arith r Mod x (PyInt p) = Ok d -> 0 <= payload d < p.
Proof.
  intros Hp H. assert (Np0 : (p =? 0) = false) by (apply Z.eqb_neq; lia).
  destruct x as [a|t a]; simpl in H; rewrite Np0 in H.
  - simpl in H. injection H as <-. simpl. apply Z.mod_pos_bound, Hp.
  - bind_inv H. injection H as <-. simpl.
    apply weak_dtype_fits in Hx. unfold fits in Hx.
    apply andb_true_iff in Hx as [Hlo Hhi].
    apply Z.leb_le in Hlo. apply Z.ltb_lt in Hhi.
    pose proof (Z.mod_pos_bound a p Hp) as Hm.
    rewrite wrap_id; [exact Hm|].
    assert (lo x <= 0) by (destruct x; simpl; lia). lia.
Qed.

(** Storing a digit keeps it a digit, and puts it in the range of the
    storage dtype. *)
Lemma store_range (r : promotion) (t : NumPy.dtype) (x : scalar) (d p : Z) :
  t <> int64 -> 0 <= payload x < p -> store r t x = Ok d ->
  0 <= d < p /\ d < 2 ^ bits t.
Proof.
  intros Ht Hx H. pose proof (pow_bits_pos t) as HM.
  assert (Hwrap : forall z, 0 <= z < p -> 0 <= wrap t z < p /\ wrap t z < 2 ^ bits t).
  { intros z Hz. rewrite wrap_unsigned by assumption.
    pose proof (Z.mod_pos_bound z (2 ^ bits t) HM).
    pose proof (Z.mod_le z (2 ^ bits t) ltac:(lia) HM). lia. }
  destruct x as [z|u z]; simpl in *.
  - destruct (fits t z) eqn:E.
    + injection H as <-. unfold fits in E. apply andb_true_iff in E as [_ Hhi].
      apply Z.ltb_lt in Hhi. destruct t; simpl in *; solve [lia | contradiction].
    + destruct r; [|discriminate].
      destruct ((- 2 ^ 63 <=? z) && (z <? legacy_hi t)); [|discriminate].
      injection H as <-. now apply Hwrap.
  - injection H as <-. now apply Hwrap.
Qed.

Lemma array_range (r : promotion) (t : NumPy.dtype) (p : Z) (xs : list scalar) (ds : list Z) :
  t <> int64 -> Forall (fun x => 0 <= payload x < p) xs ->
  array r t xs = Ok ds ->
  length ds = length xs /\ Forall (fun d => 0 <= d < p /\ d < 2 ^ bits t) ds.
Proof.
  intros Ht Hxs. revert ds. induction Hxs as [|x xs Hx _ IH]; intros ds H; simpl in H.
  - injection H as <-. split; [reflexivity | constructor].
  - bind_inv H. bind_inv H. injection H as <-.
    destruct (IH _ Hx1) as [L F]. split; [simpl; congruence|].
    constructor; [|assumption]. eapply store_range; eauto.
Qed.

(** A loop that appends one digit per round. *)
Lemma for_range_appends {C : Type} (p : Z)
      (body : nat -> list scalar * C -> outcome (list scalar * C)) :
  (forall i res c res' c',
      body i (res, c) = Ok (res', c') ->
      exists d, res' = res ++ [d] /\ 0 <= payload d < p) ->
  forall count start res c res' c',
    for_range body start count (res, c) = Ok (res', c') ->
    exists ds, res' = res ++ ds /\ length ds = count
               /\ Forall (fun x => 0 <= payload x < p) ds.
Proof.
  intros Hbody. induction count as [|count IH]; intros start res c res' c' H.
  - simpl in H. injection H as <- <-. exists []. rewrite app_nil_r. auto.
  - cbn [for_range] in H. bind_inv H. destruct x as [res1 c1].
    destruct (Hbody _ _ _ _ _ Hx) as (d & -> & Hd).
    destruct (IH _ _ _ _ _ H) as (ds & -> & L & F).
    exists (d :: ds). rewrite <- app_assoc. simpl. auto.
Qed.

Lemma add_body_appends (r : promotion) (a b : PadicInteger) :
  0 < prime a ->
  forall i res c res' c',
    add_body r a b i (res, c) = Ok (res', c') ->
    exists d, res' = res ++ [d] /\ 0 <= payload d < prime a.
Proof.
  intros Hp i res c res' c' H. unfold add_body in H.
  do 6 bind_inv H. injection H as <- <-.
  eexists. split; [reflexivity|]. eapply arith_mod_range; eauto.
Qed.

Lemma sub_body_appends (r : promotion) (a b : PadicInteger) :
  0 < prime a ->
  forall i res c res' c',
    sub_body r a b i (res, c) = Ok (res', c') ->
    exists d, res' = res ++ [d] /\ 0 <= payload d < prime a.
Proof.
  intros Hp i res c res' c' H. unfold sub_body in H.
  do 6 bind_inv H. injection H as <- <-.
  eexists. split; [reflexivity|]. eapply arith_mod_range; eauto.
Qed.

Lemma py_slice_to_all {A : Type} (l : list A) (n : Z) :
  length l = Z.to_nat n -> py_slice_to l n = l.
Proof.
  intros L. unfold py_slice_to. destruct (Z.leb_spec 0 n).
  - rewrite <- L. apply firstn_all.
  - assert (length l = 0%nat) by lia. destruct l; [|discriminate].
    apply firstn_nil.
Qed.

(** The shape of a value built from the digits a loop collected. *)
Lemma init_collected (r : promotion) (p n : Z) (ds : list scalar) (c : PadicInteger) :
  length ds = Z.to_nat n -> Forall (fun x => 0 <= payload x < p) ds ->
  __init__ r (ListValue ds) p n = Ok c ->
  prime c = p /\ precision c = n /\ dtype c = select_dtype p
  /\ length (digits c) = Z.to_nat n
  /\ Forall (fun d => 0 <= d < p /\ d < 2 ^ bits (select_dtype p)) (digits c).
Proof.
  intros L F H. cbn [__init__] in H. unfold init_list in H.
  rewrite py_slice_to_all in H by assumption.
  bind_inv H. injection H as <-. simpl.
  destruct (array_range r (select_dtype p) p ds x (select_dtype_unsigned p) F Hx)
    as [Lx Fx].
  repeat split; auto. congruence.
Qed.

(** X10: whatever the operands hold, a sum or a difference that is returned
    has the first operand's prime, the larger precision, exactly as many
    digits as its precision (none for a negative one), and every digit in
    [0, prime - 1] and in the range of the storage dtype.  Wrap-around makes
    digits wrong, never invalid. *)
Theorem sum_and_difference_shape (r : promotion) (a b c : PadicInteger) :
  0 < prime a ->
  __add__ r a b = Ok c \/ __sub__ r a b = Ok c ->
  prime a = prime b
  /\ prime c = prime a
  /\ precision c = Z.max (precision a) (precision b)
  /\ dtype c = select_dtype (prime a)
  /\ length (digits c) = Z.to_nat (precision c)
  /\ Forall (fun d => 0 <= d < prime a /\ d < 2 ^ bits (dtype c)) (digits c).
Proof.
  intros Hp H.
  assert (E : prime a = prime b).
  { destruct (Z.eqb_spec (prime a) (prime b)) as [E|N]; [exact E|].
    destruct H as [H|H];
      [apply (proj2 (add_mismatch r a b)) in N | apply (proj2 (sub_mismatch r a b)) in N];
      rewrite N in H; discriminate. }
  split; [exact E|].
  assert (exists ds, length ds = Z.to_nat (Z.max (precision a) (precision b))
            /\ Forall (fun x => 0 <= payload x < prime a) ds
            /\ __init__ r (ListValue ds) (prime a)
                        (Z.max (precision a) (precision b)) = Ok c)
    as (ds & L & F & Hc).
  { destruct H as [H|H]; [unfold __add__ in H | unfold __sub__ in H];
      rewrite E, Z.eqb_refl in H; simpl negb in H; cbv iota in H; rewrite <- E in H;
      bind_inv H; destruct x as [res c0].
    - destruct (for_range_appends (prime a) _ (add_body_appends r a b Hp)
                                  _ _ _ _ _ _ Hx) as (ds & -> & L & F).
      exists ds. auto.
    - destruct (for_range_appends (prime a) _ (sub_body_appends r a b Hp)
                                  _ _ _ _ _ _ Hx) as (ds & -> & L & F).
      exists ds. auto. }
  destruct (init_collected r _ _ ds c L F Hc) as (P & K & D & Ln & Fd).
  rewrite K, D. auto.
Qed.

Lemma sum_and_difference_shape_witness :
  length (digits (mkPadic 251 1 uint8 [244])) = 1%nat
  /\ Forall (fun d => 0 <= d < 251 /\ d < 2 ^ 8) [244].
Proof.
  pose proof (sum_and_difference_shape NEP50 (mkPadic 251 1 uint8 [250])
                (mkPadic 251 1 uint8 [250]) (mkPadic 251 1 uint8 [244])
                ltac:(simpl; lia) (or_introl eq_refl)) as (_ & _ & _ & _ & L & F).
  exact (conj L F).
Defined.

Lemma store_in_dtype (r : promotion) (t : NumPy.dtype) (x : scalar) (d : Z) :
  t <> int64 -> store r t x = Ok d -> 0 <= d < 2 ^ bits t.
Proof.
  intros Ht H. pose proof (pow_bits_pos t) as HM.
  assert (Hwrap : forall z, 0 <= wrap t z < 2 ^ bits t).
  { intros z. rewrite wrap_unsigned by assumption. now apply Z.mod_pos_bound. }
  destruct x as [z|u z]; simpl in H.
  - destruct (fits t z) eqn:E.
    + injection H as <-. unfold fits in E. apply andb_true_iff in E as [Hlo Hhi].
      apply Z.leb_le in Hlo. apply Z.ltb_lt in Hhi.
      destruct t; simpl in *; solve [lia | contradiction].
    + destruct r; [|discriminate].
      destruct ((- 2 ^ 63 <=? z) && (z <? legacy_hi t)); [|discriminate].
      injection H as <-. apply Hwrap.
  - injection H as <-. apply Hwrap.
Qed.

Lemma array_in_dtype (r : promotion) (t : NumPy.dtype) (xs : list scalar) (ds : list Z) :
  t <> int64 -> array r t xs = Ok ds ->
  length ds = length xs /\ Forall (fun d => 0 <= d < 2 ^ bits t) ds.
Proof.
  intros Ht. revert ds. induction xs as [|x xs IH]; intros ds H; simpl in H.
  - injection H as <-. split; [reflexivity | constructor].
  - bind_inv H. bind_inv H. injection H as <-.
    destruct (IH _ Hx0) as [L F]. split; [simpl; congruence|].
    constructor; [|assumption]. eapply store_in_dtype; eauto.
Qed.

Lemma py_setitem_length {A : Type} (l l' : list A) (i : Z) (v : A) :
  py_setitem l i v = Ok l' -> length l' = length l.
Proof.
  unfold py_setitem. repeat case_match; intros [= <-]; apply length_insert.
Qed.

Lemma for_range_invariant {S : Type} (P : S -> Prop)
      (body : nat -> S -> outcome S) :
  (forall i s s', P s -> body i s = Ok s' -> P s') ->
  forall count start s s', P s -> for_range body start count s = Ok s' -> P s'.
Proof.
  intros Hbody. induction count as [|count IH]; intros start s s' Hs H.
  - simpl in H. now injection H as <-.
  - cbn [for_range] in H. bind_inv H. eauto.
Qed.

Lemma mul_inner_length (r : promotion) (a b : PadicInteger) (i j : nat) (n : nat)
      (s s' : list scalar * scalar) :
  length (fst s) = n -> mul_inner r a b i j s = Ok s' -> length (fst s') = n.
Proof.
  intros L H. destruct s as [res c]. unfold mul_inner in H.
  do 9 bind_inv H. injection H as <-. simpl in *.
  apply py_setitem_length in Hx6. congruence.
Qed.

Lemma mul_outer_length (r : promotion) (a b : PadicInteger) (i : nat) (n : nat)
      (res res' : list scalar) :
  length res = n -> mul_outer r a b i res = Ok res' -> length res' = n.
Proof.
  intros L H. unfold mul_outer in H. bind_inv H. destruct x as [row c].
  apply py_setitem_length in H.
  pose proof (for_range_invariant (fun s => length (fst s) = n) _
                (fun j s s' => mul_inner_length r a b i j n s s')
                _ _ (res, PyInt 0) (row, c) L Hx) as L'.
  simpl in L'. congruence.
Qed.

(** X11: a product that is returned has the first operand's prime, precision
    [a.precision + b.precision], exactly as many digits as its precision,
    and every digit in the range of the storage dtype. *)
Theorem product_shape (r : promotion) (a b c : PadicInteger) :
  __mul__ r a b = Ok c ->
  prime a = prime b
  /\ prime c = prime a
  /\ precision c = precision a + precision b
  /\ dtype c = select_dtype (prime a)
  /\ length (digits c) = Z.to_nat (precision c)
  /\ Forall (fun d => 0 <= d < 2 ^ bits (dtype c)) (digits c).
Proof.
  intros H.
  assert (E : prime a = prime b).
  { destruct (Z.eqb_spec (prime a) (prime b)) as [E|N]; [exact E|].
    apply (proj2 (mul_mismatch r a b)) in N. rewrite N in H. discriminate. }
  split; [exact E|].
  unfold __mul__ in H. rewrite E, Z.eqb_refl in H. simpl negb in H. cbv iota in H.
  rewrite <- E in H. bind_inv H.
  pose proof (for_range_invariant
                (fun res => length res = range_len (precision a + precision b)) _
                (fun i res res' => mul_outer_length r a b i _ res res')
                _ _ _ _ (length_replicate _ _) Hx) as L.
  cbn [__init__] in H. unfold init_list in H.
  rewrite py_slice_to_all in H by exact L.
  bind_inv H. injection H as <-. simpl.
  destruct (array_in_dtype r _ _ _ (select_dtype_unsigned (prime a)) Hx0) as [Lx Fx].
  repeat split; auto. unfold range_len in L. congruence.
Qed.

Lemma product_shape_witness :
  length (digits (mkPadic 17 2 uint8 [0; 0])) = 2%nat
  /\ Forall (fun d => 0 <= d < 2 ^ 8) [0; 0].
Proof.
  pose proof (product_shape NEP50 (mkPadic 17 1 uint8 [16]) (mkPadic 17 1 uint8 [16])
                (mkPadic 17 2 uint8 [0; 0]) eq_refl) as (_ & _ & _ & _ & L & F).
  exact (conj L F).
Defined.

(** ** What the constructor returns *)

Lemma int_to_padic_loop_length (p : Z) (count start : nat) (ds ds' : list Z) (n n' : Z) :
  for_range (int_to_padic_body p) start count (ds, n) = Ok (ds', n') ->
  length ds' = (length ds + count)%nat.
Proof.
  revert start ds n. induction count as [|count IH]; intros start ds n H.
  - simpl in H. injection H as <- <-. lia.
  - cbn [for_range] in H. bind_inv H. destruct x as [ds1 n1].
    unfold int_to_padic_body in Hx. do 2 bind_inv Hx. injection Hx as <- <-.
    apply IH in H. rewrite length_app in H. simpl in H. lia.
Qed.

Lemma py_slice_to_length {A : Type} (l : list A) (k : Z) :
  0 <= k -> Z.of_nat (length (py_slice_to l k)) = Z.min (Z.of_nat (length l)) k.
Proof.
  intros Hk. unfold py_slice_to. destruct (Z.leb_spec 0 k); [|lia].
  rewrite length_firstn. lia.
Qed.

(** X12: every value the constructor returns carries the prime and precision
    it was given and the dtype selected from the prime; its digits lie in
    the range of that dtype; built from an integer it has exactly
    [max(precision, 0)] digits, built from a list never more than a
    non-negative precision allows. *)
Theorem init_invariant (r : promotion) (value : py_value) (p k : Z) (x : PadicInteger) :
  __init__ r value p k = Ok x ->
  prime x = p /\ precision x = k /\ dtype x = select_dtype p
  /\ Forall (fun d => 0 <= d < 2 ^ bits (dtype x)) (digits x)
  /\ match value with
     | IntValue _ => length (digits x) = Z.to_nat k
     | ListValue l => 0 <= k -> Z.of_nat (length (digits x)) = Z.min (Z.of_nat (length l)) k
     | OtherValue => False
     end.
Proof.
  intros H. destruct value as [n|l|]; cbn [__init__] in H; [| |discriminate].
  - unfold init_int, _int_to_padic in H. bind_inv H. bind_inv Hx.
    destruct x1 as [ds n']. injection H as <-. simpl.
    destruct (array_in_dtype r _ _ _ (select_dtype_unsigned p) Hx) as [L F].
    apply int_to_padic_loop_length in Hx0. simpl in Hx0.
    rewrite length_map in L. unfold range_len in Hx0.
    repeat split; auto. congruence.
  - unfold init_list in H. bind_inv H. injection H as <-. simpl.
    destruct (array_in_dtype r _ _ _ (select_dtype_unsigned p) Hx) as [L F].
    repeat split; auto. intros Hk. rewrite L. now apply py_slice_to_length.
Qed.

Lemma init_invariant_witness :
  Forall (fun d => 0 <= d < 2 ^ 32) [14] /\ length [14] = Z.to_nat 1.
Proof.
  pose proof (init_invariant Legacy (IntValue 4294967310) 4294967311 1
                (mkPadic 4294967311 1 uint32 [14]) eq_refl) as (_ & _ & _ & F & L).
  exact (conj F L).
Defined.

Lemma array_stored_digits (r : promotion) (t u : NumPy.dtype) (ds : list Z) :
  t <> int64 -> Forall (fun d => 0 <= d < 2 ^ bits t) ds ->
  array r t (map (Np u) ds) = Ok ds /\ array r t (map PyInt ds) = Ok ds.
Proof.
  intros Ht. induction 1 as [|d ds Hd _ [IH1 IH2]]; simpl; [auto|].
  rewrite IH1, IH2. simpl.
  rewrite (wrap_in_range t Ht t d) by (unfold carrier; auto).
  rewrite (fits_in_range t Ht t d) by (unfold carrier; auto).
  auto.
Qed.

(** X13: a value the constructor returned with a non-negative precision is
    rebuilt from its own fields: [PadicInteger(list(x.digits), x.prime,
    x.precision)] is [x] again, for every prime, whether the digits are
    passed as the array's scalars or as Python integers. *)
Theorem init_rebuild (r : promotion) (value : py_value) (p k : Z) (x : PadicInteger) :
  __init__ r value p k = Ok x -> 0 <= k ->
  __init__ r (ListValue (map (Np (dtype x)) (digits x))) (prime x) (precision x) = Ok x
  /\ __init__ r (ListValue (map PyInt (digits x))) (prime x) (precision x) = Ok x.
Proof.
  intros H Hk.
  assert (prime x = p /\ precision x = k /\ dtype x = select_dtype p
          /\ Forall (fun d => 0 <= d < 2 ^ bits (select_dtype p)) (digits x)
          /\ Z.of_nat (length (digits x)) <= k) as (P & K & D & F & Hlen).
  { destruct value as [n|l|]; cbn [__init__] in H; [| |discriminate].
    - unfold init_int, _int_to_padic in H. bind_inv H. bind_inv Hx.
      destruct x1 as [ds n']. injection H as <-. simpl.
      destruct (array_in_dtype r _ _ _ (select_dtype_unsigned p) Hx) as [L F].
      apply int_to_padic_loop_length in Hx0. simpl in Hx0.
      rewrite length_map in L. unfold range_len in Hx0.
      repeat split; auto. lia.
    - unfold init_list in H. bind_inv H. injection H as <-. simpl.
      destruct (array_in_dtype r _ _ _ (select_dtype_unsigned p) Hx) as [L F].
      repeat split; auto. rewrite L.
      pose proof (py_slice_to_length l k Hk). lia. }
  cbn [__init__]. unfold init_list.
  assert (Hslice : forall u : list scalar,
             length u = length (digits x) -> py_slice_to u (precision x) = u).
  { intros u Lu. unfold py_slice_to. rewrite K.
    destruct (Z.leb_spec 0 k); [|lia]. apply firstn_all2. lia. }
  rewrite !Hslice by apply length_map.
  rewrite P, D.
  destruct (array_stored_digits r (select_dtype p) (select_dtype p) (digits x)
              (select_dtype_unsigned p) F) as [-> ->].
  cbn [bind]. destruct x; simpl in *. subst. auto.
Qed.

Lemma init_rebuild_witness :
  __init__ Legacy (ListValue (map PyInt [14])) 4294967311 1
  = Ok (mkPadic 4294967311 1 uint32 [14]).
Proof.
  refine (proj2 (init_rebuild Legacy (IntValue 4294967310) 4294967311 1
                   (mkPadic 4294967311 1 uint32 [14]) eq_refl _)).
  lia.
Defined.

(** X14: construction from a list of in-range digits copies a prefix and
    nothing else.  With a non-negative precision it keeps the first
    [min(len, precision)] digits, so a shorter list stays short; with a
    negative precision, Python's slice drops the last [-precision]
    digits. *)
Theorem init_list_keeps_prefix (r : promotion) (d : list Z) (p k : Z) :
  2 <= p <= 2 ^ 32 -> Spec.in_range p d ->
  __init__ r (ListValue (map PyInt d)) p k
  = Ok (mkPadic p k (select_dtype p)
          (if 0 <=? k then firstn (Z.to_nat k) d
           else firstn (length d - Z.to_nat (- k)) d)).
Proof.
  intros Hp Hd. cbn [__init__]. unfold init_list, py_slice_to.
  rewrite length_map.
  assert (Hpre : forall m, array r (select_dtype p) (firstn m (map PyInt d))
                           = Ok (firstn m d)).
  { intros m. rewrite firstn_map. apply array_in_range; [lia|].
    unfold Spec.in_range. now apply Forall_take. }
  destruct (Z.leb_spec 0 k).
  - now rewrite Hpre.
  - replace (Z.to_nat (Z.of_nat (length d) + k))
      with (length d - Z.to_nat (- k))%nat by lia.
    now rewrite Hpre.
Qed.

Lemma init_list_keeps_prefix_witness :
  __init__ NEP50 (ListValue (map PyInt [1; 2; 3])) 5 (-1)
  = Ok (mkPadic 5 (-1) uint8 [1; 2]).
Proof.
  apply (init_list_keeps_prefix NEP50 [1; 2; 3] 5 (-1)); [lia|].
  repeat constructor; lia.
Defined.

(** X15: construction from an integer with a precision of 0 or less runs no
    loop round and returns no digits, for every integer and every prime,
    also the prime 0; with a positive precision and the prime 0 the first
    [n % prime] raises [ZeroDivisionError]. *)
Theorem init_int_degenerate (r : promotion) (n p k : Z) :
  (k <= 0 -> __init__ r (IntValue n) p k = Ok (mkPadic p k (select_dtype p) []))
  /\ (1 <= k -> __init__ r (IntValue n) 0 k = Raise ZeroDivisionError).
Proof.
  split; intros Hk; cbn [__init__]; unfold init_int, _int_to_padic, range_len.
  - replace (Z.to_nat k) with 0%nat by lia. reflexivity.
  - destruct (Z.to_nat k) as [|m] eqn:E; [lia|]. reflexivity.
Qed.

Lemma init_int_degenerate_witness :
  __init__ Legacy (IntValue 7) 0 0 = Ok (mkPadic 0 0 uint8 [])
  /\ __init__ Legacy (IntValue 7) 0 1 = Raise ZeroDivisionError.
Proof.
  destruct (init_int_degenerate Legacy 7 0 0) as [H0 _].
  destruct (init_int_degenerate Legacy 7 0 1) as [_ H1].
  split; [apply H0 | apply H1]; lia.
Defined.

(** ** The constructor and the operators together *)

Lemma expansion_well_formed (p k n : Z) :
  0 < p -> 0 <= k ->
  well_formed (mkPadic p k (select_dtype p) (Spec.expansion p (range_len k) n)).
Proof.
  intros Hp Hk. split; simpl.
  - rewrite expansion_length by assumption. unfold range_len. lia.
  - apply expansion_in_range. assumption.
  - reflexivity.
Qed.

Lemma room_bounds_prime (p : Z) :
  2 <= p -> 2 * p <= 2 ^ bits (select_dtype p) -> p <= 2 ^ 32.
Proof.
  intros Hp H. pose proof (bits_unsigned _ (select_dtype_unsigned p)). lia.
Qed.

(** X16: where twice the prime fits the storage width, adding two values
    built from integers gives the value built from the sum:
    [PadicInteger(n, p, k) + PadicInteger(m, p, k)] is
    [PadicInteger(n + m, p, k)], for all integers, negative ones included. *)
Theorem add_of_integers (r : promotion) (n m p k : Z) :
  2 <= p -> 2 * p <= 2 ^ bits (select_dtype p) -> 0 <= k ->
  lift2 (__add__ r) (__init__ r (IntValue n) p k) (__init__ r (IntValue m) p k)
  = __init__ r (IntValue (n + m)) p k.
Proof.
  intros Hp Hroom Hk. pose proof (room_bounds_prime p Hp Hroom) as Hp32.
  rewrite !init_int_expansion by lia. unfold lift2. cbn [bind].
  rewrite add_exact_safe_range;
    try (apply expansion_well_formed; lia); try assumption; try reflexivity.
  simpl. rewrite Z.max_id. f_equal. f_equal. unfold range_len.
  apply (value_inj p); try lia.
  - apply add_from_in_range. lia.
  - apply expansion_in_range. lia.
  - unfold Spec.add. now rewrite add_from_length, expansion_length by lia.
  - rewrite value_add, !value_expansion by lia.
    now rewrite <- Zplus_mod.
Qed.

Lemma add_of_integers_witness :
  lift2 (__add__ Legacy) (__init__ Legacy (IntValue (-123)) 5 10)
        (__init__ Legacy (IntValue 456) 5 10)
  = __init__ Legacy (IntValue 333) 5 10.
Proof.
  apply (add_of_integers Legacy (-123) 456 5 10); [lia | | lia].
  vm_compute. discriminate.
Defined.

(** X17: with NumPy 2 and twice the prime fitting the storage width,
    subtracting two values built from integers gives the value built from
    the difference: a negative difference comes out as its p-adic
    complement. *)
Theorem sub_of_integers (n m p k : Z) :
  2 <= p -> 2 * p <= 2 ^ bits (select_dtype p) -> 0 <= k ->
  lift2 (__sub__ NEP50) (__init__ NEP50 (IntValue n) p k)
        (__init__ NEP50 (IntValue m) p k)
  = __init__ NEP50 (IntValue (n - m)) p k.
Proof.
  intros Hp Hroom Hk. pose proof (room_bounds_prime p Hp Hroom) as Hp32.
  rewrite !init_int_expansion by lia. unfold lift2. cbn [bind].
  rewrite sub_exact_safe_range;
    try (apply expansion_well_formed; lia); try assumption; try reflexivity.
  simpl. rewrite Z.max_id. f_equal. f_equal. unfold range_len.
  apply (value_inj p); try lia.
  - apply sub_from_in_range. lia.
  - apply expansion_in_range. lia.
  - unfold Spec.subtract. now rewrite sub_from_length, expansion_length by lia.
  - rewrite value_sub, !value_expansion by (try apply expansion_in_range; lia).
    now rewrite <- Zminus_mod.
Qed.

Lemma sub_of_integers_witness :
  lift2 (__sub__ NEP50) (__init__ NEP50 (IntValue 123) 5 10)
        (__init__ NEP50 (IntValue 456) 5 10)
  = __init__ NEP50 (IntValue (-333)) 5 10.
Proof.
  apply (sub_of_integers 123 456 5 10); [lia | | lia].
  vm_compute. discriminate.
Defined.

(** X18: where the square of the prime fits the storage width, multiplying
    two values built from integers with precision [k] gives, with precision
    [2k], the value built from the product of the two residues modulo
    [p^k]: nothing of the product is cut off. *)
Theorem mul_of_integers (r : promotion) (n m p k : Z) :
  2 <= p -> p * p <= 2 ^ bits (select_dtype p) -> 0 <= k ->
  lift2 (__mul__ r) (__init__ r (IntValue n) p k) (__init__ r (IntValue m) p k)
  = __init__ r (IntValue ((n mod p ^ k) * (m mod p ^ k))) p (k + k).
Proof.
  intros Hp Hroom Hk.
  assert (Hp32 : p <= 2 ^ 32).
  { pose proof (bits_unsigned _ (select_dtype_unsigned p)). nia. }
  rewrite !init_int_expansion by lia. unfold lift2. cbn [bind].
  set (A := mkPadic p k _ (Spec.expansion p (range_len k) n)).
  set (B := mkPadic p k _ (Spec.expansion p (range_len k) m)).
  assert (WA : well_formed A) by (apply expansion_well_formed; lia).
  assert (WB : well_formed B) by (apply expansion_well_formed; lia).
  rewrite (mul_exact r A B WA WB eq_refl Hp Hroom).
  destruct (mul_exact_in_range r A B WA WB eq_refl Hp Hroom) as [L F].
  subst A B. simpl in *. f_equal. f_equal.
  assert (HP : 0 < p ^ k) by (apply Z.pow_pos_nonneg; lia).
  pose proof (Z.mod_pos_bound n (p ^ k) HP) as Hn.
  pose proof (Z.mod_pos_bound m (p ^ k) HP) as Hm.
  apply (value_inj p); try lia.
  - exact F.
  - apply expansion_in_range. lia.
  - rewrite L, expansion_length by lia. unfold range_len. lia.
  - rewrite value_mul
      by (try rewrite expansion_length by lia; unfold range_len; lia).
    rewrite !value_expansion by lia. unfold range_len.
    rewrite !Z2Nat.id by lia. rewrite Z.pow_add_r by lia.
    symmetry. apply Z.mod_small. nia.
Qed.

Lemma mul_of_integers_witness :
  lift2 (__mul__ NEP50) (__init__ NEP50 (IntValue 123) 5 10)
        (__init__ NEP50 (IntValue 456) 5 10)
  = __init__ NEP50 (IntValue 56088) 5 20.
Proof.
  apply (mul_of_integers NEP50 123 456 5 10); [lia | | lia].
  vm_compute. discriminate.
Defined.

(** ** Operands with fewer digits than their precision *)

Lemma for_range_round {S : Type} (body : nat -> S -> outcome S)
      (count start : nat) (s s' : S) (i : nat) :
  for_range body start count s = Ok s' ->
  (start <= i < start + count)%nat ->
  exists si si', body i si = Ok si'.
Proof.
  revert start s. induction count as [|count IH]; intros start s H Hi; [lia|].
  cbn [for_range] in H. bind_inv H.
  destruct (Nat.eq_dec i start) as [->|N]; [eauto|].
  apply (IH (Datatypes.S start) x); [assumption | lia].
Qed.

Lemma digit_missing (x : PadicInteger) (i : nat) :
  (length (digits x) <= i)%nat -> digit x i = Raise IndexError.
Proof.
  intros Hi. unfold digit, py_getitem.
  now rewrite (proj2 (lookup_ge_None (digits x) i) Hi).
Qed.

Lemma digit_or_zero_missing (x : PadicInteger) :
  Z.of_nat (length (digits x)) < precision x ->
  digit_or_zero x (length (digits x)) = Raise IndexError.
Proof.
  intros Hx. unfold digit_or_zero.
  destruct (Z.ltb_spec (Z.of_nat (length (digits x))) (precision x)); [|lia].
  now apply digit_missing.
Qed.

(** X19: an operand that holds fewer digits than its precision makes
    addition and subtraction fail for every partner of the same or another
    prime, and multiplication fail for every partner of positive precision:
    no value is returned. *)
Theorem short_operand_never_returns (r : promotion) (a b c : PadicInteger) :
  short a \/ short b ->
  __add__ r a b <> Ok c
  /\ __sub__ r a b <> Ok c
  /\ (1 <= precision a -> 1 <= precision b -> __mul__ r a b <> Ok c).
Proof.
  intros Hshort.
  assert (Hround : exists i, Z.of_nat i < Z.max (precision a) (precision b)
            /\ (digit_or_zero a i = Raise IndexError
                \/ digit_or_zero b i = Raise IndexError)).
  { destruct Hshort as [H|H]; [exists (length (digits a)) | exists (length (digits b))];
      (split; [unfold short in H; lia|]);
      [left | right]; now apply digit_or_zero_missing. }
  destruct Hround as (i & Hi & Hraise).
  split; [|split].
  - intros H. unfold __add__ in H.
    destruct (negb (prime a =? prime b)); [discriminate|]. bind_inv H.
    destruct (for_range_round _ _ _ _ _ i Hx) as ([res cy] & s' & Hb);
      [unfold range_len; lia|].
    unfold add_body in Hb.
    destruct Hraise as [E|E]; rewrite E in Hb;
      [|destruct (digit_or_zero a i)]; discriminate.
  - intros H. unfold __sub__ in H.
    destruct (negb (prime a =? prime b)); [discriminate|]. bind_inv H.
    destruct (for_range_round _ _ _ _ _ i Hx) as ([res cy] & s' & Hb);
      [unfold range_len; lia|].
    unfold sub_body in Hb.
    destruct Hraise as [E|E]; rewrite E in Hb;
      [|destruct (digit_or_zero a i)]; discriminate.
  - intros Ha Hb H. unfold __mul__ in H.
    destruct (negb (prime a =? prime b)); [discriminate|]. bind_inv H.
    assert (exists i j, Z.of_nat i < precision a /\ Z.of_nat j < precision b
              /\ (digit a i = Raise IndexError \/ digit b j = Raise IndexError))
      as (i' & j' & Hi' & Hj' & Hr).
    { destruct Hshort as [S|S]; unfold short in S.
      - exists (length (digits a)), 0%nat. repeat split; try lia.
        left. now apply digit_missing.
      - exists 0%nat, (length (digits b)). repeat split; try lia.
        right. now apply digit_missing. }
    destruct (for_range_round _ _ _ _ _ i' Hx) as (res & res' & Ho);
      [unfold range_len; lia|].
    unfold mul_outer in Ho. bind_inv Ho.
    match goal with
    | Hrow : for_range (mul_inner _ _ _ _) _ _ _ = Ok _ |- _ =>
        destruct (for_range_round _ _ _ _ _ j' Hrow) as ([row cy] & s' & Hin);
          [unfold range_len; lia|]
    end.
    unfold mul_inner in Hin. bind_inv Hin.
    destruct Hr as [E|E]; rewrite E in Hin;
      [|destruct (digit a i')]; discriminate.
Qed.

Lemma short_operand_never_returns_witness :
  __add__ NEP50 (mkPadic 5 2 uint8 [1]) (mkPadic 5 2 uint8 [1; 0])
  <> Ok (mkPadic 5 2 uint8 [2; 0]).
Proof.
  refine (proj1 (short_operand_never_returns NEP50 (mkPadic 5 2 uint8 [1])
                   (mkPadic 5 2 uint8 [1; 0]) (mkPadic 5 2 uint8 [2; 0]) _)).
  left. unfold short. simpl. lia.
Defined.

(** ** What is displayed *)

Lemma chars_append (s t : String.string) : chars (s +++ t) = chars s ++ chars t.
Proof. induction s as [|c s IH]; simpl; [reflexivity|]. now rewrite <- IH. Qed.

Lemma chars_inj (s t : String.string) : chars s = chars t -> s = t.
Proof.
  intros H. rewrite <- (String.string_of_list_ascii_of_string s).
  rewrite <- (String.string_of_list_ascii_of_string t). unfold chars in H.
  now rewrite H.
Qed.

Lemma chars_concat (sep : String.string) (l : list String.string) :
  chars (String.concat sep l) = join (chars sep) (map chars l).
Proof.
  induction l as [|x l IH]; [reflexivity|].
  destruct l as [|y l]; [reflexivity|].
  cbn [String.concat map join]. rewrite !chars_append. f_equal. f_equal.
  exact IH.
Qed.

(** Two texts cut at the first occurrence of a character agree part by
    part. *)
Lemma split_at_char (c : Ascii.ascii) (s s' t t' : list Ascii.ascii) :
  ~ In c s -> ~ In c s' -> s ++ c :: t = s' ++ c :: t' -> s = s' /\ t = t'.
Proof.
  revert s'. induction s as [|a s IH]; intros [|a' s'] Hs Hs' H; simpl in *.
  - injection H as ->. auto.
  - injection H as <- _. tauto.
  - injection H as -> _. tauto.
  - injection H as -> H. destruct (IH s') as [-> ->]; auto.
Qed.

Lemma join_inj (c : Ascii.ascii) (sep : list Ascii.ascii) (l l' : list (list Ascii.ascii)) :
  Forall (fun x => x <> [] /\ ~ In c x) l ->
  Forall (fun x => x <> [] /\ ~ In c x) l' ->
  join (c :: sep) l = join (c :: sep) l' -> l = l'.
Proof.
  intros Hl. revert l'. induction Hl as [|x l [Hx Cx] Hl IH]; intros l' Hl' H.
  - destruct Hl' as [|x' l' [Hx' _] Hl']; [reflexivity|].
    exfalso. simpl in H. destruct l'; destruct x'; simpl in H; congruence.
  - destruct Hl' as [|x' l' [Hx' Cx'] Hl'].
    + exfalso. simpl in H. destruct l; destruct x; simpl in H; congruence.
    + destruct l as [|y l], l' as [|y' l']; cbn [join] in H.
      * now subst.
      * exfalso. apply Cx. rewrite H. apply in_or_app. right. now left.
      * exfalso. apply Cx'. rewrite <- H. apply in_or_app. right. now left.
      * simpl in H. apply split_at_char in H as [-> H]; auto.
        apply app_inv_head in H. f_equal. apply IH; auto.
Qed.

Lemma uint_chars (d : Decimal.uint) :
  Forall numeral_char (chars (DecimalString.NilEmpty.string_of_uint d)).
Proof.
  induction d; simpl; constructor; try assumption;
    unfold numeral_char; simpl; tauto.
Qed.

(** A numeral is never empty and is written with digits and a sign only. *)
Lemma str_int_chars (z : Z) :
  chars (str_int z) <> [] /\ Forall numeral_char (chars (str_int z)).
Proof.
  assert (Hu : forall d, chars (DecimalString.NilZero.string_of_uint d) <> []
                         /\ Forall numeral_char
                              (chars (DecimalString.NilZero.string_of_uint d))).
  { intros d. split.
    - destruct d; discriminate.
    - destruct d; try apply (uint_chars (_ d)).
      simpl. constructor; [unfold numeral_char; simpl; tauto | constructor]. }
  unfold str_int. destruct z as [|q|q]; simpl.
  - split; [discriminate|]. constructor; [unfold numeral_char; simpl; tauto | constructor].
  - apply Hu.
  - split; [discriminate|].
    constructor; [unfold numeral_char; simpl; tauto | apply Hu].
Qed.

Lemma str_int_inj (z z' : Z) : str_int z = str_int z' -> z = z'.
Proof.
  assert (Hnil : forall n, Z.to_int n <> Decimal.Pos Decimal.Nil
                           /\ Z.to_int n <> Decimal.Neg Decimal.Nil).
  { intros [|q|q]; simpl; split; try discriminate;
      intros [= E]; now apply DecimalPos.Unsigned.to_uint_nonnil in E. }
  intros H. apply DecimalZ.to_int_inj.
  apply (f_equal DecimalString.NilZero.int_of_string) in H. unfold str_int in H.
  rewrite !DecimalString.NilZero.isi in H by apply Hnil. now injection H.
Qed.

Lemma numeral_lacks (c : Ascii.ascii) (z : Z) :
  ~ numeral_char c -> ~ In c (chars (str_int z)).
Proof.
  intros Hc Hin. apply Hc.
  exact (proj1 (List.Forall_forall _ _) (proj2 (str_int_chars z)) c Hin).
Qed.

Lemma map_injective {A B : Type} (f : A -> B) (l l' : list A) :
  (forall a a', f a = f a' -> a = a') -> map f l = map f l' -> l = l'.
Proof.
  intros Hf. revert l'. induction l as [|a l IH]; intros [|a' l'] H;
    try discriminate; [reflexivity|].
  injection H as Ha H. f_equal; auto.
Qed.

(** X20: the text [__str__] shows determines the digits: two values that
    print alike hold the same digit sequence.  The dot never occurs inside a
    numeral, so the fields cannot run together. *)
Theorem str_determines_digits (x y : PadicInteger) :
  __str__ x = __str__ y -> digits x = digits y.
Proof.
  intros H. apply (f_equal chars) in H. unfold __str__ in H.
  rewrite !chars_append, !chars_concat in H.
  apply app_inv_head, app_inv_tail in H.
  apply (join_inj "."%char []) in H.
  - rewrite !map_map in H.
    apply map_injective in H; [now apply rev_inj|].
    intros a a' E. now apply str_int_inj, chars_inj.
  - rewrite map_map. apply List.Forall_forall. intros s Hs.
    apply in_map_iff in Hs as (z & <- & _).
    split; [apply str_int_chars|]. apply numeral_lacks.
    unfold numeral_char. simpl. intuition discriminate.
  - rewrite map_map. apply List.Forall_forall. intros s Hs.
    apply in_map_iff in Hs as (z & <- & _).
    split; [apply str_int_chars|]. apply numeral_lacks.
    unfold numeral_char. simpl. intuition discriminate.
Qed.

Lemma str_determines_digits_witness :
  digits (mkPadic 5 10 uint8 [3; 4; 4]) = digits (mkPadic 7 3 uint16 [3; 4; 4]).
Proof.
  apply (str_determines_digits (mkPadic 5 10 uint8 [3; 4; 4])
                               (mkPadic 7 3 uint16 [3; 4; 4])).
  reflexivity.
Defined.

Lemma join_lacks (c : Ascii.ascii) (sep : list Ascii.ascii) (l : list (list Ascii.ascii)) :
  ~ In c sep -> Forall (fun x => ~ In c x) l -> ~ In c (join sep l).
Proof.
  intros Hsep. induction 1 as [|x l Hx Hl IH]; [simpl; tauto|].
  destruct l as [|y l]; [exact Hx|].
  cbn [join]. intros Hin.
  apply in_app_or in Hin as [Hin|Hin]; [tauto|].
  apply in_app_or in Hin as [Hin|Hin]; tauto.
Qed.

Lemma dtype_name_chars (t : NumPy.dtype) :
  ~ In ","%char (chars (dtype_name t)) /\ ~ In "]"%char (chars (dtype_name t)).
Proof. destruct t; simpl; intuition discriminate. Qed.

(** An element of the printed list holds neither a comma nor a closing
    bracket, and is not empty. *)
Lemma repr_scalar_chars (r : promotion) (t : NumPy.dtype) (z : Z) :
  chars (repr_scalar r t z) <> []
  /\ ~ In ","%char (chars (repr_scalar r t z))
  /\ ~ In "]"%char (chars (repr_scalar r t z)).
Proof.
  assert (Hz : forall c, ~ numeral_char c -> ~ In c (chars (str_int z)))
    by (intros c; apply numeral_lacks).
  assert (Hcomma : ~ numeral_char ","%char)
    by (unfold numeral_char; simpl; intuition discriminate).
  assert (Hbracket : ~ numeral_char "]"%char)
    by (unfold numeral_char; simpl; intuition discriminate).
  destruct r; unfold repr_scalar.
  - split; [apply str_int_chars|]. auto.
  - rewrite !chars_append. split; [discriminate|].
    destruct (dtype_name_chars t) as [Nc Nb].
    pose proof (Hz _ Hcomma) as Zc. pose proof (Hz _ Hbracket) as Zb.
    rewrite !in_app_iff. simpl. intuition discriminate.
Qed.

Lemma repr_scalar_inj (r : promotion) (t : NumPy.dtype) (z z' : Z) :
  repr_scalar r t z = repr_scalar r t z' -> z = z'.
Proof.
  destruct r; unfold repr_scalar; intros H.
  - now apply str_int_inj.
  - apply (f_equal chars) in H. rewrite !chars_append in H.
    do 3 apply app_inv_head in H. apply app_inv_tail in H.
    now apply str_int_inj, chars_inj.
Qed.

(** X21: the text [__repr__] shows determines the value.  For two values
    whose dtype is the one selected from their prime, as the constructor
    sets it, equal texts mean equal prime, precision and digits, under the
    scalar formatting of NumPy 1 and of NumPy 2 alike. *)
Theorem repr_determines_value (r : promotion) (x y : PadicInteger) :
  dtype x = select_dtype (prime x) -> dtype y = select_dtype (prime y) ->
  __repr__ r x = __repr__ r y -> x = y.
Proof.
  intros Dx Dy H. apply (f_equal chars) in H. unfold __repr__ in H.
  rewrite !chars_append, !chars_concat, !map_map in H.
  apply app_inv_head in H.
  assert (Hitems : forall w : PadicInteger,
             Forall (fun s => s <> [] /\ ~ In ","%char s /\ ~ In "]"%char s)
                    (map (fun z => chars (repr_scalar r (dtype w) z)) (digits w))).
  { intros w. apply List.Forall_forall. intros s Hs.
    apply in_map_iff in Hs as (z & <- & _). apply repr_scalar_chars. }
  assert (Hcomma : ~ numeral_char ","%char)
    by (unfold numeral_char; simpl; intuition discriminate).
  apply (split_at_char "]"%char) in H as [HJ H].
  - apply (app_inv_head (chars ", prime="%string)) in H.
    apply (split_at_char ","%char) in H as [HP H];
      [| now apply numeral_lacks | now apply numeral_lacks].
    apply (app_inv_head (chars " precision="%string)) in H.
    apply app_inv_tail in H.
    apply chars_inj, str_int_inj in HP. apply chars_inj, str_int_inj in H.
    assert (Dxy : dtype x = dtype y) by congruence.
    rewrite Dxy in HJ.
    apply (join_inj ","%char [" "%char]) in HJ.
    + apply map_injective in HJ.
      * destruct x, y; simpl in *. congruence.
      * intros a a' E. now apply chars_inj, repr_scalar_inj in E.
    + rewrite <- Dxy. eapply List.Forall_impl; [|apply Hitems]. simpl. tauto.
    + eapply List.Forall_impl; [|apply Hitems]. simpl. tauto.
  - apply join_lacks; [simpl; intuition discriminate|].
    eapply List.Forall_impl; [|apply Hitems]. simpl. tauto.
  - apply join_lacks; [simpl; intuition discriminate|].
    eapply List.Forall_impl; [|apply Hitems]. simpl. tauto.
Qed.

Lemma repr_determines_value_witness :
  mkPadic 5 2 uint8 [3; 4] = mkPadic 5 2 uint8 [3; 4].
Proof.
  apply (repr_determines_value NEP50 (mkPadic 5 2 uint8 [3; 4])
                               (mkPadic 5 2 uint8 [3; 4]));
    reflexivity.
Defined.

(** ** How the operators compose inside the safe range *)

Lemma value_of_well_formed (a : PadicInteger) :
  well_formed a -> 0 < prime a ->
  0 <= Spec.value (prime a) (digits a) < prime a ^ precision a.
Proof.
  intros Ha Hp. rewrite <- (wf_length a Ha).
  apply value_bound; [assumption | apply (wf_range a Ha)].
Qed.

Lemma sub_result_well_formed (p n : Z) (da db : list Z) :
  0 < p -> 0 <= n ->
  well_formed (mkPadic p n (select_dtype p) (Spec.subtract p da db (Z.to_nat n))).
Proof.
  intros Hp Hn. split; simpl.
  - unfold Spec.subtract. rewrite sub_from_length. lia.
  - apply sub_from_in_range. assumption.
  - reflexivity.
Qed.

(** X22: under NEP 50 and inside the safe range of addition, subtraction
    undoes addition and addition undoes subtraction: for well-formed [a]
    and [b] of one prime, [b] no more precise than [a], both
    [(a - b) + b] and [(a + b) - b] are [a] again. *)
Theorem add_sub_round_trip (a b : PadicInteger) :
  well_formed a -> well_formed b -> prime a = prime b ->
  precision b <= precision a -> 2 <= prime a ->
  2 * prime a <= 2 ^ bits (select_dtype (prime a)) ->
  lift2 (__add__ NEP50) (__sub__ NEP50 a b) (Ok b) = Ok a
  /\ lift2 (__sub__ NEP50) (__add__ NEP50 a b) (Ok b) = Ok a.
Proof.
  intros Ha Hb E K Hp Hroom.
  pose proof (wf_length a Ha) as La. pose proof (wf_length b Hb) as Lb.
  pose proof (value_of_well_formed a Ha ltac:(lia)) as Va.
  assert (M : Z.max (precision a) (precision b) = precision a) by lia.
  assert (Rb : Spec.in_range (prime a) (digits b))
    by (rewrite E; apply (wf_range b Hb)).
  rewrite (sub_exact_safe_range a b Ha Hb E Hp Hroom).
  rewrite (add_exact_safe_range NEP50 a b Ha Hb E Hp Hroom).
  rewrite M. unfold lift2. cbn [bind].
  set (k := precision a) in *. set (p := prime a) in *.
  set (d := mkPadic p k _ (Spec.subtract p (digits a) (digits b) _)).
  set (s := mkPadic p k _ (Spec.add p (digits a) (digits b) _)).
  assert (Wd : well_formed d) by (apply sub_result_well_formed; lia).
  assert (Ws : well_formed s) by (apply add_result_well_formed; lia).
  rewrite (add_exact_safe_range NEP50 d b Wd Hb) by (simpl; (assumption || lia)).
  rewrite (sub_exact_safe_range s b Ws Hb) by (simpl; (assumption || lia)).
  simpl prime. simpl precision. simpl digits. fold p k. rewrite M.
  split; apply f_equal;
    (etransitivity; [|symmetry; exact (well_formed_eta a Ha)]);
    fold p k; f_equal;
    apply (value_inj p); try lia;
    try (apply add_from_in_range; lia);
    try (apply sub_from_in_range; lia);
    try apply (wf_range a Ha).
  - unfold Spec.add. rewrite add_from_length. lia.
  - rewrite value_add, value_sub by (lia || assumption || apply (wf_range a Ha)).
    rewrite Z2Nat.id by lia.
    rewrite Zplus_mod_idemp_l.
    replace (Spec.value p (digits a) - Spec.value p (digits b)
             + Spec.value p (digits b)) with (Spec.value p (digits a)) by ring.
    apply Z.mod_small. exact Va.
  - unfold Spec.subtract. rewrite sub_from_length. lia.
  - rewrite value_sub by (lia || assumption || (apply add_from_in_range; lia)).
    rewrite value_add by lia. rewrite Z2Nat.id by lia.
    rewrite Zminus_mod_idemp_l.
    replace (Spec.value p (digits a) + Spec.value p (digits b)
             - Spec.value p (digits b)) with (Spec.value p (digits a)) by ring.
    apply Z.mod_small. exact Va.
Qed.

Lemma add_sub_round_trip_witness :
  lift2 (__add__ NEP50) (__sub__ NEP50 demo_a demo_b) (Ok demo_b) = Ok demo_a
  /\ lift2 (__sub__ NEP50) (__add__ NEP50 demo_a demo_b) (Ok demo_b) = Ok demo_a.
Proof.
  apply (add_sub_round_trip demo_a demo_b demo_a_well_formed demo_b_well_formed
           eq_refl ltac:(simpl; lia) ltac:(simpl; lia) demo_add_room).
Defined.

(** X23: multiplication is commutative where the square of the prime fits
    the storage width: for well-formed operands of one prime the two
    products are the same value, in both promotion regimes. *)
Theorem mul_comm_in_safe_range (r : promotion) (a b : PadicInteger) :
  well_formed a -> well_formed b -> prime a = prime b -> 2 <= prime a ->
  prime a * prime a <= 2 ^ bits (select_dtype (prime a)) ->
  __mul__ r a b = __mul__ r b a.
Proof.
  intros Ha Hb E Hp Hroom.
  pose proof (wf_length a Ha) as La. pose proof (wf_length b Hb) as Lb.
  assert (Hp' : 2 <= prime b) by lia.
  assert (Hroom' : prime b * prime b <= 2 ^ bits (select_dtype (prime b)))
    by (rewrite <- E; assumption).
  rewrite (mul_exact r a b Ha Hb E Hp Hroom).
  rewrite (mul_exact r b a Hb Ha (eq_sym E) Hp' Hroom').
  destruct (mul_exact_in_range r a b Ha Hb E Hp Hroom) as [L1 R1].
  destruct (mul_exact_in_range r b a Hb Ha (eq_sym E) Hp' Hroom') as [L2 R2].
  rewrite <- E in *. rewrite (Z.add_comm (precision b)).
  do 2 f_equal.
  apply (value_inj (prime a)); try assumption; try lia.
  rewrite !value_mul by lia. ring.
Qed.

Lemma mul_comm_in_safe_range_witness :
  __mul__ Legacy demo_a demo_b = __mul__ Legacy demo_b demo_a.
Proof.
  apply (mul_comm_in_safe_range Legacy demo_a demo_b demo_a_well_formed
           demo_b_well_formed eq_refl ltac:(simpl; lia) demo_mul_room).
Defined.

(** ** The demonstration block *)

(** What the block under [if __name__ == "__main__"] prints.  The run ends
    without an exception in both regimes; the difference line depends on the
    NumPy version, the other four do not. *)
Example main_output :
  main NEP50
  = (["a = (...0.0.0.0.0.0.0.4.4.3)"%string;
      "b = (...0.0.0.0.0.0.3.3.1.1)"%string;
      "a + b = (...0.0.0.0.0.0.4.3.0.4)"%string;
      "a - b = (...4.4.4.4.4.4.2.1.3.2)"%string;
      "a * b = (...0.0.0.0.0.0.0.0.0.0.0.0.0.3.2.4.3.3.2.3)"%string], Ok tt)
  /\ main Legacy
  = (["a = (...0.0.0.0.0.0.0.4.4.3)"%string;
      "b = (...0.0.0.0.0.0.3.3.1.1)"%string;
      "a + b = (...0.0.0.0.0.0.4.3.0.4)"%string;
      "a - b = (...0.0.0.0.0.0.3.1.3.2)"%string;
      "a * b = (...0.0.0.0.0.0.0.0.0.0.0.0.0.3.2.4.3.3.2.3)"%string], Ok tt).
Proof. split; vm_compute; reflexivity. Qed.

(** ** Construction and the storage width *)

(** X25: construction from an integer depends on the integer only modulo
    [p^k], for every positive prime and every precision [k >= 0], also for
    primes whose digits the array cannot hold: the two constructions store
    the same digits or fail alike. *)
Theorem init_int_reduces (r : promotion) (n p k : Z) :
  0 < p -> 0 <= k ->
  __init__ r (IntValue (n mod p ^ k)) p k = __init__ r (IntValue n) p k.
Proof.
  intros Hp Hk. cbn [__init__]. unfold init_int, _int_to_padic.
  rewrite !int_to_padic_loop by lia. cbn [bind app]. unfold range_len.
  now rewrite expansion_mod_precision by lia.
Qed.

Lemma init_int_reduces_witness :
  __init__ Legacy (IntValue ((-1) mod 4294967311 ^ 1)) 4294967311 1
  = __init__ Legacy (IntValue (-1)) 4294967311 1.
Proof. apply (init_int_reduces Legacy (-1) 4294967311 1); lia. Defined.

Lemma array_python_ints_inv (r : promotion) (t : NumPy.dtype) (ds : list Z) :
  t <> int64 -> array r t (map PyInt ds) = Ok ds ->
  Forall (fun d => d < 2 ^ bits t) ds.
Proof.
  intros Ht H. destruct (array_in_dtype r t (map PyInt ds) ds Ht H) as [_ F].
  eapply List.Forall_impl; [|exact F]. simpl. lia.
Qed.

(** X26: construction from an integer returns the base-[p] expansion
    exactly when every digit of the expansion is below [2^width] of the
    selected dtype, for every positive prime and every precision [k >= 0].
    Up to [2^32] that is always so; above, it depends on the digits. *)
Theorem init_int_exact_iff (r : promotion) (n p k : Z) :
  0 < p -> 0 <= k ->
  let ds := Spec.expansion p (Z.to_nat k) n in
  __init__ r (IntValue n) p k = Ok (mkPadic p k (select_dtype p) ds)
  <-> Forall (fun d => d < 2 ^ bits (select_dtype p)) ds.
Proof.
  intros Hp Hk ds. subst ds.
  pose proof (select_dtype_unsigned p) as Hu.
  cbn [__init__]. unfold init_int, _int_to_padic.
  rewrite int_to_padic_loop by lia. cbn [bind app]. unfold range_len.
  set (ds := Spec.expansion p (Z.to_nat k) n).
  assert (Hds : Spec.in_range p ds) by (apply expansion_in_range; lia).
  split.
  - intros H. apply (array_python_ints_inv r); [assumption|].
    destruct (array r (select_dtype p) (map PyInt ds)) as [ds'|e];
      simpl in H; [|discriminate].
    injection H as ->. reflexivity.
  - intros F. rewrite array_python_ints; [reflexivity|].
    apply List.Forall_forall. intros d Hd.
    pose proof (proj1 (List.Forall_forall _ _) F d Hd) as Hhi.
    pose proof (proj1 (List.Forall_forall _ _) Hds d Hd) as Hlo.
    simpl in Hhi. unfold fits.
    apply andb_true_iff. split; [apply Z.leb_le | apply Z.ltb_lt];
      destruct (select_dtype p); simpl in *; solve [lia | contradiction].
Qed.

Lemma init_int_exact_iff_witness :
  __init__ NEP50 (IntValue 4294967312) 4294967311 2
  = Ok (mkPadic 4294967311 2 uint32 [1; 1]).
Proof.
  apply (proj2 (init_int_exact_iff NEP50 4294967312 4294967311 2
                  ltac:(lia) ltac:(lia))).
  repeat constructor.
Defined.

(** X27: for every prime above [2^32] the digit [p - 1] is not storable, so
    the bound [2^32] on construction is sharp.  Built from the integer
    [p - 1], from [-1] or from the list [[p - 1]] with precision 1, the
    value should hold the one digit [p - 1]; NumPy 2 raises
    [OverflowError], and NumPy 1 never returns that digit: what it returns
    holds [(p - 1) mod 2^32]. *)
Theorem init_fails_above_uint32 (r : promotion) (p : Z) :
  2 ^ 32 < p ->
  Spec.expansion p 1 (p - 1) = [p - 1]
  /\ __init__ r (IntValue (-1)) p 1 = __init__ r (IntValue (p - 1)) p 1
  /\ __init__ r (ListValue [PyInt (p - 1)]) p 1 = __init__ r (IntValue (p - 1)) p 1
  /\ __init__ NEP50 (IntValue (p - 1)) p 1 = Raise OverflowError
  /\ (forall x, __init__ r (IntValue (p - 1)) p 1 = Ok x ->
       digits x = [(p - 1) mod 2 ^ 32] /\ digits x <> [p - 1]).
Proof.
  intros Hp.
  assert (E1 : (p - 1) mod p = p - 1) by (apply Z.mod_small; lia).
  assert (E2 : (-1) mod p = p - 1)
    by (symmetry; apply (Z.mod_unique _ _ (-1)); lia).
  assert (Ex : Spec.expansion p 1 (p - 1) = [p - 1]).
  { unfold Spec.expansion. simpl. rewrite Z.div_1_r. now rewrite E1. }
  assert (Ex' : Spec.expansion p 1 (-1) = [p - 1]).
  { unfold Spec.expansion. simpl. rewrite Z.div_1_r. now rewrite E2. }
  assert (D : select_dtype p = uint32).
  { unfold select_dtype.
    destruct (Z.ltb_spec p 256); [lia|]. destruct (Z.ltb_spec p 65536); [lia|].
    reflexivity. }
  assert (F : fits uint32 (p - 1) = false).
  { unfold fits. apply andb_false_iff. right. apply Z.ltb_ge. simpl. lia. }
  assert (I : forall q, __init__ q (IntValue (p - 1)) p 1
                        = let* ds := array q uint32 [PyInt (p - 1)] in
                          Ok (mkPadic p 1 uint32 ds)).
  { intros q. cbn [__init__]. unfold init_int, _int_to_padic.
    change (range_len 1) with 1%nat.
    rewrite int_to_padic_loop by lia. cbn [bind app]. now rewrite Ex, D. }
  repeat apply conj.
  - exact Ex.
  - rewrite I. cbn [__init__]. unfold init_int, _int_to_padic.
    change (range_len 1) with 1%nat.
    rewrite int_to_padic_loop by lia. cbn [bind app]. now rewrite Ex', D.
  - rewrite I. cbn [__init__]. unfold init_list. rewrite D. reflexivity.
  - rewrite I. cbn [array store]. rewrite F. reflexivity.
  - intros x H. rewrite I in H. cbn [array store] in H. rewrite F in H.
    destruct r; [|discriminate].
    destruct ((- 2 ^ 63 <=? p - 1) && (p - 1 <? legacy_hi uint32));
      [|discriminate].
    cbn [bind] in H. injection H as <-. cbn [digits].
    assert (W : wrap uint32 (p - 1) = (p - 1) mod 2 ^ 32)
      by (unfold wrap; simpl lo; simpl bits; now rewrite Z.sub_0_r, Z.add_0_r).
    rewrite W. split; [reflexivity|].
    pose proof (Z.mod_pos_bound (p - 1) (2 ^ 32) ltac:(lia)).
    intros C. injection C as C. lia.
Qed.

Lemma init_fails_above_uint32_witness :
  __init__ NEP50 (IntValue (4294967311 - 1)) 4294967311 1 = Raise OverflowError.
Proof.
  refine (proj1 (proj2 (proj2 (proj2
            (init_fails_above_uint32 NEP50 4294967311 _))))).
  lia.
Defined.
